(** * tranqap (rpcap): capture/output engine and configuration loader

    A shallow embedding of
      - internal/output  (MultiOutput, the fan-out of one pcap stream),
      - internal/capture (Storage, the registry of running capturers),
      - cmd/tranqap/config.go (configuration parsing and validation),
    together with the properties of the specification that concern them.

    Conventions.  A Go panic is the result [None] of an [option]-valued
    operation.  Every critical section guarded by a mutex is one atomic step
    of the model; the goroutines that consume an event channel are modelled
    by a function handling one event.  Pointers to sinks are addresses
    ([nat]); the bytes a sink was handed live in a store keyed by address. *)

From Stdlib Require Import ZArith Strings.Ascii Strings.Byte Lia.
From stdpp Require Import base option list gmap strings pretty.

Local Open Scope Z_scope.

(** Go's [error] values are rendered by their message. *)
Definition error := string.

(* ===================================================================== *)
(** ** Go slices of bytes *)
(* ===================================================================== *)

Module goslice.

(** A slice is a window on a backing array: [arr] holds the array from the
    slice's first element up to its capacity, [len] is the slice length. *)
Record slice := Slice { arr : list byte; len : nat }.

Definition cap (p : slice) : nat := length (arr p).

Definition wf (p : slice) : Prop := (len p <= cap p)%nat.

(** The elements [p[0], ..., p[len(p)-1]]. *)
Definition bytes (p : slice) : list byte := take (len p) (arr p).

(** [p[0:hi]]: for a slice the upper bound is checked against the
    capacity, not the length; out of range is a run-time panic. *)
Definition reslice (p : slice) (hi : nat) : option (list byte) :=
  if decide (hi <= cap p)%nat then Some (take hi (arr p)) else None.

(** A slice whose capacity equals its length. *)
Definition of_bytes (l : list byte) : slice := Slice l (length l).

End goslice.

(* ===================================================================== *)
(** ** sync.WaitGroup *)
(* ===================================================================== *)

Module sync.

(** [wg.Add(delta)]: the counter must not become negative. *)
Definition wg_Add (delta : Z) (counter : Z) : option Z :=
  if decide (0 <= counter + delta) then Some (counter + delta) else None.

(** [wg.Done()] is [wg.Add(-1)]. *)
Definition wg_Done (counter : Z) : option Z := wg_Add (-1) counter.

(** [wg.Wait()] returns as soon as the counter is zero. *)
Definition wg_Wait_returns (counter : Z) : bool := bool_decide (counter = 0).

End sync.

(* ===================================================================== *)
(** ** internal/output: MultiOutput *)
(* ===================================================================== *)

Module output.
Import goslice sync.

Definition pcapHeaderSize : nat := 24.

(** An [Outputer] interface value is identified by the address it holds. *)
Definition Outputer := nat.

Definition MOEventChan := positive.

Record MultiOutputEvent := { from : Outputer; event : Z }.

Definition OutputerDead : Z := 0.

(** [nil] is [None]. *)
Definition OutputerFactory := MOEventChan -> option Outputer.

(** What the sinks were handed so far, and which ones were closed. *)
Record sinks := { received : gmap Outputer (list byte); closed : gset Outputer }.

Definition seen (s : sinks) (o : Outputer) : list byte :=
  default [] (received s !! o).

(** [o.Write(p)]: the result is ignored by every caller in this package. *)
Definition sink_Write (s : sinks) (o : Outputer) (p : list byte) : sinks :=
  {| received := <[o := seen s o ++ p]> (received s); closed := closed s |}.

(** [o.Close()] *)
Definition sink_Close (s : sinks) (o : Outputer) : sinks :=
  {| received := received s; closed := {[o]} ∪ closed s |}.

Definition no_sinks : sinks := {| received := ∅; closed := ∅ |}.

Record MultiOutput := {
  members : list Outputer;
  pcapHeader : list byte;
  events : MOEventChan;
  wg : Z
}.

Definition NewMultiOutput (ch : MOEventChan) (outputers : list Outputer) : MultiOutput :=
  {| members := outputers; pcapHeader := []; events := ch; wg := 0 |}.

(** The header part of [Write]. *)
Definition save_header (hdr : list byte) (p : slice) : option (list byte) :=
  let currHdrLen := length hdr in
  if decide (currHdrLen < pcapHeaderSize)%nat
  then s ← reslice p (pcapHeaderSize - currHdrLen); Some (hdr ++ s)
  else Some hdr.

(** The loop of [Write] over the members. *)
Definition forward (s : sinks) (ms : list Outputer) (p : list byte) : sinks :=
  foldl (fun s o => sink_Write s o p) s ms.

Definition Write (mo : MultiOutput) (s : sinks) (p : slice)
  : option (MultiOutput * sinks * (nat * option error)) :=
  hdr ← save_header (pcapHeader mo) p;
  Some ({| members := members mo; pcapHeader := hdr;
           events := events mo; wg := wg mo |},
        forward s (members mo) (bytes p),
        (len p, None)).

Definition AddExtMember (mo : MultiOutput) (s : sinks) (newOutFn : OutputerFactory)
  : option (MultiOutput * sinks * option error) :=
  match newOutFn (events mo) with
  | None => Some (mo, s, Some "Error creating Outputer with factory function"%string)
  | Some newMember =>
      n ← wg_Add 1 (wg mo);
      Some ({| members := members mo ++ [newMember]; pcapHeader := pcapHeader mo;
               events := events mo; wg := n |},
            sink_Write s newMember (pcapHeader mo),
            None)
  end.

(** One iteration of the loop of [eventHandler]. *)
Definition handle_event (mo : MultiOutput) (e : MultiOutputEvent) : option MultiOutput :=
  match list_find (fun c => c = from e) (members mo) with
  | Some (i, _) =>
      n ← wg_Done (wg mo);
      Some {| members := take i (members mo) ++ drop (S i) (members mo);
              pcapHeader := pcapHeader mo; events := events mo; wg := n |}
  | None => Some mo
  end.

(** [Close] closes every member and then waits on the wait group. The
    lock is held meanwhile, so no event is handled during the wait: the
    call gets past [wg.Wait()] exactly when the counter is already zero. *)
Inductive close_result :=
| Closed (s : sinks)
| WaitsFor (outstanding : Z) (s : sinks).

Definition Close (mo : MultiOutput) (s : sinks) : close_result :=
  let s' := foldl sink_Close s (members mo) in
  if wg_Wait_returns (wg mo) then Closed s' else WaitsFor (wg mo) s'.

(** A run of the fan-out: the calls made on it, in the order in which
    they take effect. *)
Inductive op :=
| OpWrite (p : slice)
| OpAddExtMember (newOutFn : OutputerFactory)
| OpEvent (e : MultiOutputEvent).

Definition step (st : MultiOutput * sinks) (o : op) : option (MultiOutput * sinks) :=
  let '(mo, s) := st in
  match o with
  | OpWrite p => r ← Write mo s p; Some (r.1)
  | OpAddExtMember f => r ← AddExtMember mo s f; Some (r.1)
  | OpEvent e => mo' ← handle_event mo e; Some (mo', s)
  end.

Fixpoint run (st : MultiOutput * sinks) (ops : list op) : option (MultiOutput * sinks) :=
  match ops with
  | [] => Some st
  | o :: ops' => st' ← step st o; run st' ops'
  end.

(** The members are the sinks handed to the constructor followed by the
    sinks added later and still alive; the counter is the number of the
    latter. *)
Definition counted (outputers : list Outputer) (mo : MultiOutput) : Prop :=
  exists ext, members mo = outputers ++ ext /\ wg mo = Z.of_nat (length ext).

(** An event of the run does not come from one of [outputers]. *)
Definition not_from (outputers : list Outputer) (o : op) : Prop :=
  match o with
  | OpEvent e => from e ∉ outputers
  | _ => True
  end.


(** The bytes handed to [Write] during a run, in order: the stream. *)
Fixpoint written (ops : list op) : list byte :=
  match ops with
  | [] => []
  | OpWrite p :: ops' => bytes p ++ written ops'
  | _ :: ops' => written ops'
  end.




End output.

(* ===================================================================== *)
(** ** internal/tqlog: the calls made on the logger *)
(* ===================================================================== *)

Module tqlog.

(** A call of one of the exported wrappers, with its format string and
    the rendered arguments. *)
Inductive call :=
| Info (format : string) (args : list string)
| Error (format : string) (args : list string)
| Feedback (format : string) (args : list string).

Definition is_Feedback (c : call) : option string :=
  match c with
  | Feedback format [] => Some format
  | _ => None
  end.

End tqlog.

(** The line feed that Go writes as a backslash followed by n. *)
Definition nl : string := String (Ascii.ascii_of_nat 10) EmptyString.

(* ===================================================================== *)
(** ** internal/capture: Capturer and Storage *)
(* ===================================================================== *)

Module capture.
Import sync.

Definition CapturerDead : Z := 0.
Definition CapturerStopped : Z := 1.

Record CapturerEvent := { from : string; event : Z }.

(** The [Capturer] interface.  A method returns the capturer as the call
    left it, next to its result. *)
Class Capturer (C : Type) := {
  Start : C -> C * option error;
  Stop : C -> C * option error;
  AddOutputer : C -> output.OutputerFactory -> C * option error;
  Name : C -> string
}.

(** What a method of [Storage] does besides changing the storage. *)
Inductive effect :=
| Log (c : tqlog.call)
| StopCalled (key : string)
| AddOutputerCalled (key : string).

Definition feedback_of (e : effect) : option string :=
  match e with
  | Log c => tqlog.is_Feedback c
  | _ => None
  end.

Definition add_outputer_of (e : effect) : option string :=
  match e with
  | AddOutputerCalled key => Some key
  | _ => None
  end.


Record Storage (C : Type) := { capturers : gmap string C; wg : Z }.
Arguments capturers {C} _.
Arguments wg {C} _.

Section Methods.
Context {C : Type} `{Capturer C}.

Definition NewStorage : Storage C := {| capturers := ∅; wg := 0 |}.

Definition Add (c : Storage C) (newCapt : C) : option (Storage C * option error) :=
  match capturers c !! Name newCapt with
  | Some _ =>
      Some (c, Some ("capturer [" +:+ Name newCapt +:+ "] already exists"))
  | None =>
      n ← wg_Add 1 (wg c);
      Some ({| capturers := <[Name newCapt := newCapt]> (capturers c); wg := n |},
            None)
  end.

(** The body of the loop of [StopAll]. *)
Definition stop_one (acc : gmap string C * list effect) (kv : string * C)
  : gmap string C * list effect :=
  let '(capt, err) := Stop kv.2 in
  (<[kv.1 := capt]> acc.1,
   acc.2 ++ StopCalled kv.1 ::
     match err with
     | Some e =>
         let errMsg := "Can't stop " +:+ Name capt +:+ ". " +:+ e in
         [Log (tqlog.Error errMsg []); Log (tqlog.Feedback errMsg [])]
     | None => []
     end).

(** [StopAll] can be called on a nil pointer: the receiver is an
    [option].  The order in which Go ranges over a map is not
    specified; the model takes the order of [map_to_list]. *)
Definition StopAll (c : option (Storage C)) : option (Storage C) * list effect :=
  match c with
  | None =>
      (None, [Log (tqlog.Info "capture.Storage: StopAll() called on a nil instance" [])])
  | Some s =>
      let r := foldl stop_one
                 (capturers s,
                  [Log (tqlog.Info "capture.Storage: Calling Stop for each capturer" [])])
                 (map_to_list (capturers s)) in
      (Some {| capturers := r.1; wg := wg s |}, r.2)
  end.

Definition add_outputer (factFn : output.OutputerFactory) (key : string) (capt : C)
    (acc : gmap string C * list effect) : gmap string C * list effect :=
  let '(capt', err) := AddOutputer capt factFn in
  (<[key := capt']> acc.1,
   acc.2 ++ AddOutputerCalled key ::
     match err with
     | Some _ => [Log (tqlog.Error "Error adding Outputer to capturer %s" [Name capt'])]
     | None => []
     end).

Definition target_missing (t : string) : string :=
  "Target <" +:+ t +:+ "> doesn't exist." +:+ nl.

(** The body of the loop over the requested targets. *)
Definition add_for_target (factFn : output.OutputerFactory)
    (acc : gmap string C * list effect) (t : string) : gmap string C * list effect :=
  match acc.1 !! t with
  | Some capt => add_outputer factFn t capt acc
  | None =>
      let errMsg := target_missing t in
      (acc.1, acc.2 ++ [Log (tqlog.Feedback errMsg []); Log (tqlog.Error errMsg [])])
  end.

Definition AddNewOutput (c : Storage C) (factFn : output.OutputerFactory)
    (targets : list string) : Storage C * list effect :=
  if decide (length targets = 0%nat) then
    if decide (size (capturers c) = 0%nat) then
      (c, [Log (tqlog.Error
                  "wireshark called without arguments, but no capturers are running." []);
           Log (tqlog.Feedback
                  ("There are no running capturers. Use start first." +:+ nl) [])])
    else
      let r := foldl (fun acc kv => add_outputer factFn kv.1 kv.2 acc)
                 (capturers c, []) (map_to_list (capturers c)) in
      ({| capturers := r.1; wg := wg c |}, r.2)
  else
    let r := foldl (add_for_target factFn) (capturers c, []) targets in
    ({| capturers := r.1; wg := wg c |}, r.2).


Definition Empty (c : Storage C) : bool :=
  bool_decide (size (capturers c) = 0%nat).

(** One iteration of the loop of [eventHandler]. *)
Definition handle_event (c : Storage C) (e : CapturerEvent)
  : option (Storage C * list effect) :=
  let caps := delete (from e) (capturers c) in
  n ← wg_Done (wg c);
  Some ({| capturers := caps; wg := n |},
        [Log (tqlog.Info "Storage: got an event from %s" [from e]);
         Log (tqlog.Info "Storage: Removed %s" [from e])]).

(** The events handled one after the other. *)
Fixpoint handle_events (c : Storage C) (es : list CapturerEvent)
  : option (Storage C) :=
  match es with
  | [] => Some c
  | e :: es' => r ← handle_event c e; handle_events r.1 es'
  end.

End Methods.

(** A capturer that only remembers what was done to it; [fails] makes
    its methods return an error. *)
Record probe := {
  pname : string;
  started : bool;
  stopped : bool;
  outputers : nat;
  fails : bool
}.

Definition probe_err (p : probe) : option error :=
  if fails p then Some "refused"%string else None.

#[export] Instance probe_Capturer : Capturer probe := {|
  Start p := ({| pname := pname p; started := true; stopped := stopped p;
                 outputers := outputers p; fails := fails p |}, probe_err p);
  Stop p := ({| pname := pname p; started := started p; stopped := true;
                outputers := outputers p; fails := fails p |}, probe_err p);
  AddOutputer p _ :=
    ({| pname := pname p; started := started p; stopped := stopped p;
        outputers := (if fails p then outputers p else S (outputers p));
        fails := fails p |}, probe_err p);
  Name := pname
|}.

Definition new_probe (n : string) : probe :=
  {| pname := n; started := true; stopped := false; outputers := 0; fails := false |}.

End capture.

(* ===================================================================== *)
(** ** cmd/tranqap/config.go *)
(* ===================================================================== *)

Module config.

Inductive result (A : Type) :=
| Ok (a : A)
| Err (e : error).
Arguments Ok {A} a.
Arguments Err {A} e.

Definition is_Err {A} (r : result A) : bool :=
  match r with Err _ => true | Ok _ => false end.

(** A nil pointer is [None]; Go's [int] is read as an integer. *)
Record target := {
  Name : option string;
  Host : option string;
  Port : option Z;
  User : option string;
  Key : option string;
  Destination : option string;
  FilePattern : option string;
  RotationCnt : option Z;
  UseSudo : option bool;
  FilterPort : option Z
}.

Record configParams := { Targets : list target }.

Definition set_Port (t : target) (v : Z) : target :=
  {| Name := Name t; Host := Host t; Port := Some v; User := User t; Key := Key t;
     Destination := Destination t; FilePattern := FilePattern t;
     RotationCnt := RotationCnt t; UseSudo := UseSudo t; FilterPort := FilterPort t |}.

Definition set_RotationCnt (t : target) (v : Z) : target :=
  {| Name := Name t; Host := Host t; Port := Port t; User := User t; Key := Key t;
     Destination := Destination t; FilePattern := FilePattern t;
     RotationCnt := Some v; UseSudo := UseSudo t; FilterPort := FilterPort t |}.

Definition set_UseSudo (t : target) (v : bool) : target :=
  {| Name := Name t; Host := Host t; Port := Port t; User := User t; Key := Key t;
     Destination := Destination t; FilePattern := FilePattern t;
     RotationCnt := RotationCnt t; UseSudo := Some v; FilterPort := FilterPort t |}.

(** *** The libraries the file calls *)

(** gopkg.in/yaml.v2.  [Unmarshal] fills a zero [configParams]. *)
Class Yaml := {
  Unmarshal : list byte -> configParams * option error;
  Marshal : gmap string (list target) -> list byte * option error
}.

(** golang.org/x/crypto/ssh *)
Class Ssh (Signer : Type) := {
  ParsePrivateKey : list byte -> result Signer
}.

Inductive AuthMethod (Signer : Type) :=
| PublicKeys (signer : Signer).
Arguments PublicKeys {Signer} signer.

Inductive HostKeyCallback :=
| NoHostKeyCallback
| InsecureIgnoreHostKey.

Record ClientConfig (Signer : Type) := {
  ccUser : string;
  ccAuth : list (AuthMethod Signer);
  ccHostKeyCallback : HostKeyCallback
}.
Arguments ccUser {Signer} _.
Arguments ccAuth {Signer} _.
Arguments ccHostKeyCallback {Signer} _.

(** The file system as [os] and [ioutil] show it: the files that exist,
    and the paths at which no file can be written. *)
Record FS := { files : gmap string (list byte); readonly : gset string }.

Definition ReadFile (fs : FS) (fname : string) : result (list byte) :=
  match files fs !! fname with
  | Some d => Ok d
  | None => Err ("open " +:+ fname +:+ ": no such file or directory")
  end.

Definition WriteFile (fs : FS) (fname : string) (data : list byte) : FS * option error :=
  if decide (fname ∈ readonly fs)
  then (fs, Some ("open " +:+ fname +:+ ": permission denied"))
  else ({| files := <[fname := data]> (files fs); readonly := readonly fs |}, None).


(** *** The functions of config.go *)

(** The loop of [checkForDuplicates]; dereferencing a nil [Name]
    panics. *)
Fixpoint check_names (nameSet : gset string) (ts : list target) : option (option error) :=
  match ts with
  | [] => Some None
  | t :: ts' =>
      n ← Name t;
      if decide (n ∈ nameSet)
      then Some (Some ("target " +:+ n +:+ " is defined more than once"))
      else check_names ({[n]} ∪ nameSet) ts'
  end.

Definition checkForDuplicates (config : configParams) : option (option error) :=
  check_names ∅ (Targets config).

Section Loader.
Context `{Yaml} {Signer : Type} `{Ssh Signer}.

Definition parseConfig (confFile : list byte) : option (configParams * option error) :=
  let '(conf, err) := Unmarshal confFile in
  match err with
  | Some e => Some (conf, Some e)
  | None =>
      if decide (length (Targets conf) = 0%nat)
      then Some (conf, Some "No targets defined in config"%string)
      else
        err ← checkForDuplicates conf;
        match err with
        | Some e => Some (conf, Some e)
        | None => Some (conf, None)
        end
  end.

Definition readConfigFromFile (fs : FS) (fname : string)
  : option (configParams * option error) :=
  match ReadFile fs fname with
  | Err e =>
      Some ({| Targets := [] |},
            Some (e +:+ ". Run init subcommand to generate empty config or provide path to existing config with -c"))
  | Ok confFile =>
      r ← parseConfig confFile;
      match r.2 with
      | Some e => Some ({| Targets := [] |},
                        Some ("Error parsing " +:+ fname +:+ ": " +:+ e))
      | None => Some (r.1, None)
      end
  end.

(** The end of [getClientConfig], once the fields are validated. *)
Definition load_key (fs : FS) (user host key : string) (port : Z)
  : result (ClientConfig Signer * string) :=
  let dest := host +:+ ":" +:+ pretty port in
  match ReadFile fs key with
  | Err e => Err ("unable to read private key: " +:+ e)
  | Ok k =>
      match ParsePrivateKey k with
      | Err e => Err ("unable to parse private key: " +:+ e)
      | Ok signer =>
          Ok ({| ccUser := user; ccAuth := [PublicKeys signer];
                 ccHostKeyCallback := InsecureIgnoreHostKey |}, dest)
      end
  end.

(** [getClientConfig] takes a pointer and stores the defaults through
    it: the target as the call leaves it is part of the result, next to
    the calls made on the logger. *)
Definition getClientConfig (fs : FS) (t : target)
  : target * list tqlog.call * result (ClientConfig Signer * string) :=
  match Name t with
  | None => (t, [], Err "Missing Name in configuration"%string)
  | Some name =>
  match User t with
  | None => (t, [], Err ("Missing user for target <" +:+ name +:+ "> in configuration"))
  | Some user =>
  match Key t with
  | None => (t, [], Err ("Missing Key path for target <" +:+ name +:+ "> in configuration"))
  | Some key =>
  match Host t with
  | None => (t, [], Err ("Missing Host for target <" +:+ name +:+ "> in configuration"))
  | Some host =>
  let '(t, log, port) :=
    match Port t with
    | None =>
        (set_Port t 22,
         [tqlog.Info ("Port not set for target <%s>. Setting to 22." +:+ nl) [name]], 22)
    | Some p => (t, [], p)
    end in
  match Destination t with
  | None =>
      (t, log, Err ("Missing destination for target <" +:+ name +:+ "> in configuration"))
  | Some _ =>
  match FilePattern t with
  | None => (t, log, Err ("Missing File Pattern for target <" +:+ name +:+ ">"))
  | Some _ =>
  let '(t, log, rot) :=
    match RotationCnt t with
    | None =>
        (set_RotationCnt t 10,
         log ++ [tqlog.Info
                   ("File Rotation Count not set for target <%s>. Setting to 10." +:+ nl)
                   [name]], 10)
    | Some r => (t, log, r)
    end in
  if decide (rot < 0) then
    (t, log, Err ("Invalid rotation count for target <" +:+ name +:+ "> ("
                  +:+ pretty rot +:+ ")"))
  else
  let t := match UseSudo t with None => set_UseSudo t false | Some _ => t end in
  match FilterPort t with
  | Some fp =>
      if decide (fp < 1 ∨ fp > 65535) then
        (t, log, Err ("Invalid port number for Filter port parameter: " +:+ pretty fp
                      +:+ ". Expected value between 1 and 65535"))
      else (t, log, load_key fs user host key port)
  | None => (t, log, load_key fs user host key port)
  end
  end end end end end end.

(** The target of the sample configuration. *)
Definition sample_target : target :=
  {| Name := Some "Target name. Informational identification only."%string;
     Host := Some "Hostname/IP address of the target."%string;
     Port := Some 22;
     User := Some "SSH login."%string;
     Key := Some "Path to private key, used for authentication."%string;
     Destination := Some "Path to destination dir for the PCAP files."%string;
     FilePattern := Some "Filename pattern for each pcap file. Index and file extension will be added to this string."%string;
     RotationCnt := Some 5;
     UseSudo := Some true;
     FilterPort := Some 22 |}.

Definition sample_conf : gmap string (list target) :=
  <["targets"%string := [sample_target]]> ∅.


Definition getTargetsList (cp : configParams) : option (list string) :=
  mapM Name (Targets cp).

End Loader.

End config.

(* ===================================================================== *)
(** ** A small codec for the fragment of YAML the sample uses *)
(* ===================================================================== *)

(** The properties of the loader are stated for any implementation of the
    YAML library.  This codec (one key per line, a list of flat mappings,
    plain scalars) is an implementation at which they can be run. *)
Module refyaml.
Import config.

Definition show_str (o : option string) : string := default "null"%string o.
Definition show_int (o : option Z) : string := from_option pretty "null"%string o.
Definition show_bool (o : option bool) : string :=
  from_option (fun b : bool => if b then "true" else "false")%string "null"%string o.

Definition emit_target (t : target) : string :=
  "- name: " +:+ show_str (Name t) +:+ nl +:+
  "  host: " +:+ show_str (Host t) +:+ nl +:+
  "  port: " +:+ show_int (Port t) +:+ nl +:+
  "  user: " +:+ show_str (User t) +:+ nl +:+
  "  key: " +:+ show_str (Key t) +:+ nl +:+
  "  destination: " +:+ show_str (Destination t) +:+ nl +:+
  "  file_pattern: " +:+ show_str (FilePattern t) +:+ nl +:+
  "  file_rotation_count: " +:+ show_int (RotationCnt t) +:+ nl +:+
  "  use_sudo: " +:+ show_bool (UseSudo t) +:+ nl +:+
  "  filter_port: " +:+ show_int (FilterPort t) +:+ nl.

Definition emit_entry (kv : string * list target) : string :=
  kv.1 +:+ ":" +:+ nl +:+ foldr (fun t s => emit_target t +:+ s) ""%string kv.2.

Definition emit (m : gmap string (list target)) : string :=
  foldr (fun kv s => emit_entry kv +:+ s) ""%string (map_to_list m).

(** The lines of a text; [cur] is the line being read, reversed. *)
Fixpoint lines_of (cur : string) (s : string) : list string :=
  match s with
  | EmptyString => if decide (cur = ""%string) then [] else [String.rev cur]
  | String c s' =>
      if decide (c = Ascii.ascii_of_nat 10)
      then String.rev cur :: lines_of ""%string s'
      else lines_of (String c cur) s'
  end.

(** A line [key: value] split at the first colon followed by a space. *)
Fixpoint key_value (key : string) (s : string) : option (string * string) :=
  match s with
  | String ":"%char (String " "%char v) => Some (String.rev key, v)
  | String c s' => key_value (String c key) s'
  | EmptyString => None
  end.

Definition digit (c : Ascii.ascii) : option Z :=
  let n := Z.of_nat (Ascii.nat_of_ascii c) in
  if decide (48 <= n <= 57) then Some (n - 48) else None.

Fixpoint digits (acc : Z) (s : string) : option Z :=
  match s with
  | EmptyString => Some acc
  | String c s' => d ← digit c; digits (10 * acc + d) s'
  end.

Definition read_int (s : string) : option (option Z) :=
  if decide (s = "null"%string) then Some None else
  match s with
  | EmptyString => None
  | String "-"%char s' => n ← digits 0 s'; Some (Some (- n))
  | _ => n ← digits 0 s; Some (Some n)
  end.

Definition read_str (s : string) : option string :=
  if decide (s = "null"%string) then None else Some s.

Definition read_bool (s : string) : option (option bool) :=
  if decide (s = "true"%string) then Some (Some true)
  else if decide (s = "false"%string) then Some (Some false)
  else if decide (s = "null"%string) then Some None
  else None.

(** The value of a key among the pairs read for one target. *)
Fixpoint assoc (k : string) (kvs : list (string * string)) : option string :=
  match kvs with
  | [] => None
  | (k', v) :: kvs' => if decide (k = k') then Some v else assoc k kvs'
  end.

Definition int_field (k : string) (kvs : list (string * string)) : option (option Z) :=
  match assoc k kvs with
  | Some v => read_int v
  | None => Some None
  end.

Definition bool_field (k : string) (kvs : list (string * string)) : option (option bool) :=
  match assoc k kvs with
  | Some v => read_bool v
  | None => Some None
  end.

Definition str_field (k : string) (kvs : list (string * string)) : option string :=
  assoc k kvs ≫= read_str.

Definition target_of (kvs : list (string * string)) : option target :=
  port ← int_field "port" kvs;
  rot ← int_field "file_rotation_count" kvs;
  sudo ← bool_field "use_sudo" kvs;
  fport ← int_field "filter_port" kvs;
  Some {| Name := str_field "name" kvs; Host := str_field "host" kvs; Port := port;
          User := str_field "user" kvs; Key := str_field "key" kvs;
          Destination := str_field "destination" kvs;
          FilePattern := str_field "file_pattern" kvs;
          RotationCnt := rot; UseSudo := sudo; FilterPort := fport |}.

(** The lines under [targets:], grouped by list item; the item being read
    comes first. *)
Fixpoint items (acc : list (list (string * string))) (ls : list string)
  : option (list (list (string * string))) :=
  match ls with
  | [] => Some (reverse acc)
  | String "-"%char (String " "%char l) :: ls' =>
      kv ← key_value ""%string l; items ([kv] :: acc) ls'
  | String " "%char (String " "%char l) :: ls' =>
      kv ← key_value ""%string l;
      match acc with
      | cur :: acc' => items ((cur ++ [kv]) :: acc') ls'
      | [] => None
      end
  | _ => None
  end.

Definition parse (doc : string) : option configParams :=
  match lines_of ""%string doc with
  | [] => Some {| Targets := [] |}
  | l :: ls =>
      if decide (l = "targets:"%string) then
        its ← items [] ls;
        ts ← mapM target_of its;
        Some {| Targets := ts |}
      else if decide (l = "targets: []"%string) then
        match ls with [] => Some {| Targets := [] |} | _ => None end
      else None
  end.

#[export] Instance codec : Yaml := {|
  Unmarshal doc :=
    match parse (String.string_of_list_byte doc) with
    | Some conf => (conf, None)
    | None => ({| Targets := [] |}, Some "yaml: cannot unmarshal"%string)
    end;
  Marshal m := (String.list_byte_of_string (emit m), None)
|}.

(** A private key is accepted when it is not empty. *)
#[export] Instance signer : Ssh (list byte) := {|
  ParsePrivateKey k :=
    match k with
    | [] => Err "ssh: no key found"%string
    | _ => Ok k
    end
|}.

End refyaml.

(* ===================================================================== *)
(** ** Concrete streams, sinks and capturers *)
(* ===================================================================== *)

Module samples.
Import goslice output.

(** The pcap file header of scenario S1. *)
Definition pcap_header : list byte :=
  [xd4; xc3; xb2; xa1; x02; x00; x04; x00; x00; x00; x00; x00;
   x00; x00; x00; x00; xff; xff; x00; x00; x01; x00; x00; x00].

Definition records : list byte := replicate 100 xaa.

(** The first ten bytes of the header, in a buffer of exactly ten bytes. *)
Definition short_exact : slice := of_bytes (take 10 pcap_header).

(** The same ten bytes read into a zeroed buffer of 32 bytes, the way
    [io.Copy] hands over a short read: length 10, capacity 32. *)
Definition short_roomy : slice :=
  {| arr := take 10 pcap_header ++ replicate 22 x00; len := 10 |}.

(** The rest of the header, arriving in a second buffer. *)
Definition header_rest : slice := of_bytes (drop 10 pcap_header).

Definition whole_header : slice := of_bytes pcap_header.

(** The file sink, present from the construction, and a viewer. *)
Definition file_sink : Outputer := 1%nat.
Definition viewer : Outputer := 7%nat.

Definition viewer_factory : OutputerFactory := fun _ => Some viewer.
Definition failing_factory : OutputerFactory := fun _ => None.

Definition chan : MOEventChan := 1%positive.

Definition fresh : MultiOutput := NewMultiOutput chan [].

(** A viewer attached before the stream starts, whose first read is
    short. *)
Definition early_viewer_run : list op :=
  [OpAddExtMember viewer_factory; OpWrite short_roomy; OpWrite header_rest].

(** Scenario S1: the header and 100 record bytes, a viewer attached when
    80 bytes have arrived. *)
Definition header_replay_run : list op :=
  [OpWrite (of_bytes (pcap_header ++ replicate 56 xaa));
   OpAddExtMember viewer_factory;
   OpWrite (of_bytes (replicate 44 xaa))].

(** A file sink, a viewer attached mid-stream that later dies. *)
Definition viewer_crash_run : list op :=
  [OpWrite whole_header; OpAddExtMember viewer_factory;
   OpWrite (of_bytes records);
   OpEvent {| output.from := viewer; output.event := OutputerDead |};
   OpWrite (of_bytes records)].

Import capture.

Definition capA : probe := new_probe "alpha".
Definition capB : probe :=
  {| pname := "alpha"; started := false; stopped := false; outputers := 3; fails := true |}.
Definition capBeta : probe := new_probe "beta".

Definition alpha_event : CapturerEvent :=
  {| capture.from := "alpha"; capture.event := CapturerStopped |}.

Definition with_alpha : Storage probe :=
  {| capturers := <["alpha"%string := capA]> ∅; wg := 1 |}.

Definition with_alpha_beta : Storage probe :=
  {| capturers := <["beta"%string := capBeta]> (<["alpha"%string := capA]> ∅); wg := 2 |}.

Import config.

(** A target with only the mandatory fields, its key on disk. *)
Definition minimal_target : target :=
  {| Name := Some "alpha"%string; Host := Some "10.0.0.1"%string; Port := None;
     User := Some "root"%string; Key := Some "/keys/id_rsa"%string;
     Destination := Some "/tmp/x"%string; FilePattern := Some "cap_"%string;
     RotationCnt := None; UseSudo := None; FilterPort := None |}.



Definition bad_filter_port : target :=
  {| Name := Some "alpha"%string; Host := Some "10.0.0.1"%string; Port := Some 2222;
     User := Some "root"%string; Key := Some "/keys/id_rsa"%string;
     Destination := Some "/tmp/x"%string; FilePattern := Some "cap_"%string;
     RotationCnt := Some 2; UseSudo := Some true; FilterPort := Some 65536 |}.

Definition disk : FS :=
  {| files := <["/keys/id_rsa"%string := [x2d; x2d]]> ∅; readonly := ∅ |}.

Definition empty_disk : FS := {| files := ∅; readonly := ∅ |}.

Definition empty_targets_doc : list byte :=
  String.list_byte_of_string "targets: []".

Definition beta_target : target :=
  {| Name := Some "beta"%string; Host := Some "10.0.0.2"%string; Port := Some 2222;
     User := Some "admin"%string; Key := Some "/keys/id_rsa"%string;
     Destination := Some "/tmp/y"%string; FilePattern := Some "cap_"%string;
     RotationCnt := Some 0; UseSudo := Some true; FilterPort := Some 80 |}.

(** Two configurations: one with two targets, one that names [alpha]
    twice. *)
Definition two_targets : configParams := {| Targets := [minimal_target; beta_target] |}.

Definition alpha_twice : configParams :=
  {| Targets := [minimal_target; beta_target; bad_filter_port] |}.

(** A disk with the key and with a configuration file that holds the
    sample. *)
Definition disk_with_config : FS :=
  {| files := <["tranqap.yaml"%string := (refyaml.codec.(Marshal) sample_conf).1]>
                (files disk);
     readonly := ∅ |}.

(** A fan-out in the middle of a stream: the file sink, the header
    captured. *)
Definition streaming : MultiOutput :=
  {| output.members := [file_sink]; output.pcapHeader := pcap_header;
     output.events := chan; output.wg := 0 |}.

End samples.

(* ===================================================================== *)
(** ** Runs of the registry *)
(* ===================================================================== *)

Module registry.
Import sync capture.

(** A run of the storage: the capturers added and the lifecycle events
    handled, in the order in which they take effect. *)
Inductive op (C : Type) :=
| OpAdd (newCapt : C)
| OpEvent (e : CapturerEvent).
Arguments OpAdd {C} newCapt.
Arguments OpEvent {C} e.

Definition stop_called_of (e : effect) : option string :=
  match e with
  | StopCalled key => Some key
  | _ => None
  end.

Section Runs.
Context {C : Type} `{Capturer C}.

Definition step (c : Storage C) (o : op C) : option (Storage C) :=
  match o with
  | OpAdd newCapt => r ← Add c newCapt; Some r.1
  | OpEvent e => r ← handle_event c e; Some r.1
  end.

Fixpoint run (c : Storage C) (ops : list (op C)) : option (Storage C) :=
  match ops with
  | [] => Some c
  | o :: ops' => c' ← step c o; run c' ops'
  end.

(** Every event of the run carries the name of a capturer that is held
    when the event is handled; [held] are the names held at the start. *)
Fixpoint announced (held : gset string) (ops : list (op C)) : Prop :=
  match ops with
  | [] => True
  | OpAdd newCapt :: ops' => announced ({[Name newCapt]} ∪ held) ops'
  | OpEvent e :: ops' => from e ∈ held /\ announced (held ∖ {[from e]}) ops'
  end.

(** The names held after the run. *)
Fixpoint held_after (held : gset string) (ops : list (op C)) : gset string :=
  match ops with
  | [] => held
  | OpAdd newCapt :: ops' => held_after ({[Name newCapt]} ∪ held) ops'
  | OpEvent e :: ops' => held_after (held ∖ {[from e]}) ops'
  end.

End Runs.

End registry.

(* ===================================================================== *)
(** ** cmd/tranqap/commands.go: the configuration of a capturer *)
(* ===================================================================== *)

Module commands.
Import config.

(** Modelled from the spec: [capture.SudoConfig] and [capture.FilterConfig]
    are declared in a file of the capture package that is not among the
    sources; the fields are the ones [getSudoConfig] and [getFilterConfig]
    assign (the sudo flag and the optional sudo user, the optional filter
    port). *)
Record SudoConfig := { Use : bool; Username : option string }.

Record FilterConfig := { Port : option Z }.

(** [*t.UseSudo] and [*t.User] are dereferenced: a nil pointer panics. *)
Definition getSudoConfig (t : target) : option SudoConfig :=
  match UseSudo t with
  | None => None
  | Some true =>
      user ← User t;
      Some {| Use := true; Username := Some user |}
  | Some false => Some {| Use := false; Username := None |}
  end.

Definition getFilterConfig (t : target) : FilterConfig :=
  {| Port := FilterPort t |}.

End commands.

(* ===================================================================== *)
(** ** internal/tqlog: the logger *)
(* ===================================================================== *)

Module tqlogger.
Import config.

(** The feedback callback is a token; what it was called with is kept in
    [shown]. *)
Definition FeedbackFn := nat.

(** The open log file: its name and what [logger.Printf] was called with. *)
Record LogFile := { file : string; logger : list (string * list string) }.

(** The package variables [tranqapLog] and [printFeedback], the file
    system, and the calls made on the feedback callback. *)
Record state := {
  tranqapLog : option LogFile;
  printFeedback : option FeedbackFn;
  disk : FS;
  shown : list (FeedbackFn * string * list string)
}.

Definition initial (fs : FS) : state :=
  {| tranqapLog := None; printFeedback := None; disk := fs; shown := [] |}.

(** [os.OpenFile(fname, O_WRONLY|O_TRUNC|O_CREATE, 0644)] *)
Definition OpenFile_trunc (fs : FS) (fname : string) : FS * option error :=
  WriteFile fs fname [].

Definition Init (st : state) (fname : string) (feedbackFn : option FeedbackFn)
  : state * option error :=
  if decide (0 < String.length fname)%nat then
    let '(fs', err) := OpenFile_trunc (disk st) fname in
    match err with
    | Some e => (st, Some ("Error opening log file " +:+ fname +:+ ": " +:+ e))
    | None =>
        ({| tranqapLog := Some {| file := fname; logger := [] |};
            printFeedback := feedbackFn; disk := fs'; shown := shown st |}, None)
    end
  else
    ({| tranqapLog := tranqapLog st; printFeedback := feedbackFn; disk := disk st;
        shown := shown st |}, None).

(** The last byte of a string; [None] for the empty string, where indexing
    [format[len(format)-1]] is out of range. *)
Fixpoint last_char (s : string) : option ascii :=
  match s with
  | EmptyString => None
  | String c EmptyString => Some c
  | String _ s' => last_char s'
  end.

Definition logger_Printf (l : LogFile) (format : string) (a : list string) : LogFile :=
  {| file := file l; logger := logger l ++ [(format, a)] |}.

Definition logError (l : LogFile) (format : string) (a : list string) : option LogFile :=
  c ← last_char format;
  let msgFormat :=
    if decide (c = Ascii.ascii_of_nat 10)
    then "ERROR: " +:+ format
    else "ERROR: " +:+ format +:+ nl in
  Some (logger_Printf l msgFormat a).

Definition logInfo (l : LogFile) (format : string) (a : list string) : LogFile :=
  logger_Printf l ("INFO: " +:+ format) a.

Definition with_log (st : state) (l : LogFile) : state :=
  {| tranqapLog := Some l; printFeedback := printFeedback st; disk := disk st;
     shown := shown st |}.

Definition Error (st : state) (format : string) (a : list string) : option state :=
  match tranqapLog st with
  | None => Some st
  | Some l => l' ← logError l format a; Some (with_log st l')
  end.

Definition Info (st : state) (format : string) (a : list string) : state :=
  match tranqapLog st with
  | None => st
  | Some l => with_log st (logInfo l format a)
  end.

Definition Feedback (st : state) (format : string) (a : list string) : state :=
  match printFeedback st with
  | Some fn =>
      {| tranqapLog := tranqapLog st; printFeedback := printFeedback st;
         disk := disk st; shown := shown st ++ [(fn, format, a)] |}
  | None => st
  end.

(** The calls of a method of the storage or of the loader, made on the
    logger one after the other. *)
Definition perform (st : state) (c : tqlog.call) : option state :=
  match c with
  | tqlog.Info format a => Some (Info st format a)
  | tqlog.Error format a => Error st format a
  | tqlog.Feedback format a => Some (Feedback st format a)
  end.

Fixpoint perform_all (st : state) (cs : list tqlog.call) : option state :=
  match cs with
  | [] => Some st
  | c :: cs' => st' ← perform st c; perform_all st' cs'
  end.

(** A call that the logger can take in any state: [Error] needs a format
    that is not empty. *)
Definition takes (c : tqlog.call) : Prop :=
  match c with
  | tqlog.Error format _ => format <> ""%string
  | _ => True
  end.

(** The calls on the logger among the effects of a method of the
    storage. *)
Definition log_of (e : capture.effect) : option tqlog.call :=
  match e with
  | capture.Log c => Some c
  | _ => None
  end.

End tqlogger.

Module logger_samples.
Import config samples.

(** A logger with its file open. *)
Definition logging : tqlogger.state :=
  {| tqlogger.tranqapLog := Some {| tqlogger.file := "tranqap.log"; tqlogger.logger := [] |};
     tqlogger.printFeedback := Some 1%nat; tqlogger.disk := disk; tqlogger.shown := [] |}.

(** A disk on which the log file cannot be created. *)
Definition locked_disk : FS :=
  {| files := ∅; readonly := {["/var/log/tranqap.log"%string]} |}.

End logger_samples.

(* ===================================================================== *)
(** * Properties of MultiOutput *)
(* ===================================================================== *)

Module output_props.
Import goslice sync output samples.

(** ** The header buffer *)

Lemma save_header_full hdr p :
  (pcapHeaderSize <= length hdr)%nat -> save_header hdr p = Some hdr.
Proof.
  intros Hfull. unfold save_header.
  destruct (decide (length hdr < pcapHeaderSize)%nat); [lia | reflexivity].
Qed.

Lemma save_header_missing hdr p :
  (length hdr < pcapHeaderSize)%nat ->
  (pcapHeaderSize - length hdr <= len p)%nat -> wf p ->
  save_header hdr p = Some (hdr ++ take (pcapHeaderSize - length hdr) (bytes p)).
Proof.
  intros Hlt Hlen Hwf. unfold save_header, reslice, bytes, wf in *.
  destruct (decide (length hdr < pcapHeaderSize)%nat); [| lia].
  destruct (decide (pcapHeaderSize - length hdr <= cap p)%nat); [| lia].
  simpl. rewrite take_take. do 3 f_equal. lia.
Qed.

Lemma save_header_completes hdr p hdr' :
  save_header hdr p = Some hdr' ->
  (length hdr <= pcapHeaderSize)%nat -> length hdr' = pcapHeaderSize.
Proof.
  unfold save_header, reslice, cap. intros Hs Hle.
  destruct (decide (length hdr < pcapHeaderSize)%nat).
  - destruct (decide (pcapHeaderSize - length hdr <= length (arr p))%nat);
      simpl in Hs; [| discriminate].
    injection Hs as <-. rewrite length_app, length_take. lia.
  - injection Hs as <-. lia.
Qed.

Lemma save_header_prefix hdr p hdr' :
  save_header hdr p = Some hdr' -> hdr `prefix_of` hdr'.
Proof.
  unfold save_header. intros Hs.
  destruct (decide (length hdr < pcapHeaderSize)%nat).
  - destruct (reslice p _) as [x|]; simpl in Hs; [| discriminate].
    injection Hs as <-. by exists x.
  - injection Hs as <-. reflexivity.
Qed.

(** Once full, the header is never touched by [Write] again. *)
Lemma Write_keeps_full_header mo s p :
  length (pcapHeader mo) = pcapHeaderSize ->
  exists s', Write mo s p =
    Some ({| members := members mo; pcapHeader := pcapHeader mo;
             events := events mo; wg := wg mo |}, s', (len p, None)).
Proof.
  intros Hfull. unfold Write.
  rewrite save_header_full by lia. simpl. eauto.
Qed.

(** A [Write] that returns leaves a full header, whatever the length of
    its buffer: the buffer is resliced up to the missing length. *)
Lemma Write_completes_header mo s p r :
  Write mo s p = Some r ->
  (length (pcapHeader mo) <= pcapHeaderSize)%nat ->
  length (pcapHeader r.1.1) = pcapHeaderSize.
Proof.
  unfold Write. intros Hw Hle.
  destruct (save_header (pcapHeader mo) p) as [hdr|] eqn:Hs; simpl in Hw; [| discriminate].
  injection Hw as <-. simpl. eauto using save_header_completes.
Qed.

(** ** The members and the counter *)

Lemma Write_members_wg mo s p r :
  Write mo s p = Some r -> members r.1.1 = members mo /\ wg r.1.1 = wg mo.
Proof.
  unfold Write. intros Hw.
  destruct (save_header _ _); simpl in Hw; [| discriminate].
  by injection Hw as <-.
Qed.

Lemma AddExtMember_created mo s f o r :
  f (events mo) = Some o -> AddExtMember mo s f = Some r ->
  members r.1.1 = members mo ++ [o] /\ wg r.1.1 = wg mo + 1 /\
  pcapHeader r.1.1 = pcapHeader mo /\
  seen r.1.2 o = seen s o ++ pcapHeader mo /\ r.2 = None.
Proof.
  unfold AddExtMember, wg_Add. intros -> Ha.
  destruct (decide (0 <= wg mo + 1)); simpl in Ha; [| discriminate].
  injection Ha as <-. simpl. unfold seen at 1. simpl.
  by rewrite lookup_insert_eq.
Qed.

Lemma AddExtMember_failed mo s f :
  f (events mo) = None ->
  AddExtMember mo s f =
    Some (mo, s, Some "Error creating Outputer with factory function"%string).
Proof. unfold AddExtMember. by intros ->. Qed.


(** ** Header replay when the first buffer holds the whole header *)

Lemma sink_Write_seen s o p o' :
  seen (sink_Write s o p) o' = if decide (o' = o) then seen s o ++ p else seen s o'.
Proof.
  unfold seen at 1, sink_Write. simpl. destruct (decide (o' = o)) as [-> | Hne].
  - by rewrite lookup_insert_eq.
  - by rewrite lookup_insert_ne.
Qed.

Lemma forward_seen ms : forall s p o,
  NoDup ms ->
  seen (forward s ms p) o = if decide (o ∈ ms) then seen s o ++ p else seen s o.
Proof.
  unfold forward. induction ms as [| m ms IH]; intros s p o Hnd; cbn [foldl].
  { rewrite decide_False; [done | apply not_elem_of_nil]. }
  apply NoDup_cons in Hnd as [Hm Hnd]. rewrite IH by done.
  rewrite !sink_Write_seen.
  destruct (decide (o = m)) as [-> | Hne].
  - rewrite decide_False by done. rewrite decide_True; [done | by left].
  - destruct (decide (o ∈ ms)) as [Hin | Hout].
    + rewrite decide_True; [done | by right].
    + rewrite decide_False; [done |]. by intros [? | ?]%elem_of_cons.
Qed.








(** Scenario S1. *)
Example header_replayed_S1 :
  exists mo s,
    run (NewMultiOutput chan [file_sink], no_sinks) header_replay_run = Some (mo, s) /\
    pcapHeader mo = pcap_header /\
    seen s viewer = pcap_header ++ replicate 44 xaa /\
    seen s file_sink = pcap_header ++ replicate 100 xaa.
Proof. eexists _, _. by vm_compute. Qed.

(** ** Buffers shorter than the missing part of the header *)

(** C2. [Write] is called with the first ten bytes of the stream while
    no header byte is captured.  With a buffer of capacity ten the call
    panics (slice bounds out of range).  With the same ten bytes in a
    buffer of capacity 32 the call returns, and the header buffer holds
    24 bytes: the ten bytes of the buffer followed by the 14 bytes that
    lie behind its length in the backing array.  In neither case is the
    header the previous header followed by the min(len(p), 24 - captured)
    = 10 first bytes of the buffer. *)
Theorem Write_short_buffer_header :
  wf short_exact /\ wf short_roomy /\
  bytes short_exact = take 10 pcap_header /\ bytes short_roomy = take 10 pcap_header /\
  Write fresh no_sinks short_exact = None /\
  exists mo' s',
    Write fresh no_sinks short_roomy = Some (mo', s', (10%nat, None)) /\
    length (pcapHeader mo') = 24%nat /\
    pcapHeader mo' = bytes short_roomy ++ replicate 14 x00 /\
    pcapHeader mo' <>
      pcapHeader fresh ++
        take (len short_roomy `min` (pcapHeaderSize - length (pcapHeader fresh)))
             (bytes short_roomy).
Proof.
  split; [vm_compute; lia |]. split; [vm_compute; lia |].
  split; [reflexivity |]. split; [reflexivity |]. split; [reflexivity |].
  eexists _, _. split; [reflexivity |].
  split; [reflexivity |]. split; [reflexivity |].
  vm_compute. discriminate.
Qed.

(** C1. A viewer is attached before the stream starts; the stream then
    arrives as a short read of ten bytes (in a zeroed buffer of 32 bytes)
    followed by the other 14 bytes of the pcap header.  The header is
    complete afterwards and the viewer is a member, it has received the 24
    bytes of the pcap header of the stream, but the captured header is a
    different sequence of 24 bytes.  ([header_replayed] above is the
    invariant for the runs whose first buffer holds the whole header.) *)
Theorem early_sink_header_mismatch :
  wf short_roomy /\ wf header_rest /\
  written early_viewer_run = pcap_header /\
  exists mo s,
    run (fresh, no_sinks) early_viewer_run = Some (mo, s) /\
    length (pcapHeader mo) = pcapHeaderSize /\
    viewer ∈ members mo /\
    seen s viewer = pcap_header /\
    take pcapHeaderSize (seen s viewer) <> pcapHeader mo.
Proof.
  split; [vm_compute; lia |]. split; [vm_compute; lia |]. split; [reflexivity |].
  eexists _, _. split; [reflexivity |].
  split; [reflexivity |]. split; [vm_compute; left |].
  split; [reflexivity |]. vm_compute. discriminate.
Qed.

(** ** The wait group counts the sinks added after the construction *)

Section Counter.
Variable outputers : list Outputer.

Lemma counted_new ch : counted outputers (NewMultiOutput ch outputers).
Proof. exists []. by rewrite app_nil_r. Qed.

Lemma counted_event mo e mo' :
  from e ∉ outputers -> counted outputers mo -> handle_event mo e = Some mo' ->
  counted outputers mo'.
Proof.
  intros Hfrom (ext & Hm & Hwg). unfold handle_event.
  destruct (list_find _ _) as [[i c]|] eqn:Hfind; [| intros [= <-]; by exists ext].
  rewrite Hm in Hfind. apply list_find_app_Some in Hfind as [Hl | (Hi & _ & Hr)].
  { apply list_find_Some in Hl as (Hl & -> & _).
    apply list_elem_of_lookup_2 in Hl. done. }
  apply list_find_Some in Hr as (Hr & _ & _).
  apply lookup_lt_Some in Hr.
  unfold wg_Done, wg_Add.
  destruct (decide (0 <= wg mo + -1)); simpl; [| lia].
  intros [= <-]. simpl.
  exists (take (i - length outputers) ext ++ drop (S (i - length outputers)) ext).
  split.
  - rewrite Hm, take_app, drop_app.
    rewrite (take_ge outputers) by lia. rewrite (drop_ge outputers) by lia.
    replace (S i - length outputers)%nat with (S (i - length outputers)) by lia.
    by rewrite <- app_assoc.
  - rewrite length_app, length_take, length_drop. cbn [wg]. lia.
Qed.

Lemma counted_step mo s o st' :
  not_from outputers o -> counted outputers mo -> step (mo, s) o = Some st' ->
  counted outputers st'.1.
Proof.
  intros Hfrom Hc. destruct o as [p | f | e]; simpl.
  - destruct (Write mo s p) as [r|] eqn:Hw; simpl; [| discriminate].
    intros [= <-]. apply Write_members_wg in Hw as [Hm Hwg].
    destruct Hc as (ext & ? & ?). exists ext. simpl. by rewrite Hm, Hwg.
  - destruct (AddExtMember mo s f) as [r|] eqn:Ha; simpl; [| discriminate].
    intros [= <-]. destruct (f (events mo)) as [o|] eqn:Hf.
    + eapply AddExtMember_created in Ha as (Hm & Hwg & _); [| done].
      destruct Hc as (ext & Hme & Hwe). exists (ext ++ [o]). simpl.
      rewrite Hm, Hwg, Hme, Hwe, length_app, <- app_assoc. simpl length.
      split; [done | lia].
    + rewrite AddExtMember_failed in Ha by done. by injection Ha as <-.
  - destruct (handle_event mo e) as [mo'|] eqn:He; simpl; [| discriminate].
    intros [= <-]. simpl. eauto using counted_event.
Qed.

Lemma counted_run ops : forall st st',
  Forall (not_from outputers) ops -> counted outputers st.1 ->
  run st ops = Some st' -> counted outputers st'.1.
Proof.
  induction ops as [| o ops IH]; intros [mo s] st' Hall Hc; cbn [run].
  - by intros [= <-].
  - inversion Hall as [| ? ? Ho Hops]; subst.
    destruct (step (mo, s) o) as [st1|] eqn:Hstep; simpl; [| discriminate].
    intros Hrun. eapply (IH st1); eauto using counted_step.
Qed.

End Counter.

(** C8. After any run of [Write], [AddExtMember] and events (none of
    them from a sink handed to the constructor: such a sink is built before
    the event channel exists and is never given it), the
    members are the sinks of the constructor followed by the sinks added
    by [AddExtMember] that are still alive, and the counter of the wait
    group is the number of the latter: the sinks of the constructor are
    not counted.  When no added sink is left, [Close] gets past the wait
    although the sinks of the constructor are still members. *)
Theorem wg_counts_only_added_sinks ch outputers s0 ops mo s :
  Forall (not_from outputers) ops ->
  run (NewMultiOutput ch outputers, s0) ops = Some (mo, s) ->
  wg (NewMultiOutput ch outputers) = 0 /\
  exists ext,
    members mo = outputers ++ ext /\
    wg mo = Z.of_nat (length ext) /\
    (ext = [] -> exists s', Close mo s = Closed s').
Proof.
  intros Hall Hrun. split; [reflexivity |].
  pose proof (counted_run outputers ops (NewMultiOutput ch outputers, s0) (mo, s)
                Hall (counted_new outputers ch) Hrun) as (ext & Hm & Hwg).
  exists ext. split; [done |]. split; [done |].
  intros ->. unfold Close, wg_Wait_returns. simpl in Hwg. rewrite Hwg. simpl. eauto.
Qed.

Lemma viewer_crash_run_events : Forall (not_from [file_sink]) viewer_crash_run.
Proof.
  repeat constructor. simpl. unfold viewer, file_sink.
  apply not_elem_of_cons. split; [discriminate | apply not_elem_of_nil].
Qed.

Lemma wg_counts_only_added_sinks_run :
  exists mo s ext,
    run (NewMultiOutput chan [file_sink], no_sinks) viewer_crash_run = Some (mo, s) /\
    members mo = [file_sink] ++ ext /\ wg mo = Z.of_nat (length ext) /\
    (ext = [] -> exists s', Close mo s = Closed s').
Proof.
  eexists _, _.
  destruct (wg_counts_only_added_sinks chan [file_sink] no_sinks viewer_crash_run
              _ _ viewer_crash_run_events eq_refl) as (_ & ext & H1 & H2 & H3).
  exists ext. split; [reflexivity |]. split; [exact H1 |]. split; [exact H2 | exact H3].
Defined.

End output_props.

(* ===================================================================== *)
(** * Properties of Storage *)
(* ===================================================================== *)

Module capture_props.
Import sync capture samples.

Section Registry.
Context {C : Type} `{Capturer C}.

(** ** Add *)

(** C4. When the storage holds a capturer under the name of the new
    one, [Add] returns the duplicate error and the storage it was
    given: the capturer held under the name and the counter of the
    wait group are the ones from before the call. *)
Theorem Add_duplicate_rejected (c : Storage C) (newCapt old : C) :
  capturers c !! Name newCapt = Some old ->
  exists c',
    Add c newCapt =
      Some (c', Some ("capturer [" +:+ Name newCapt +:+ "] already exists")) /\
    c' = c /\ capturers c' !! Name newCapt = Some old /\ wg c' = wg c.
Proof.
  intros Hold. exists c. unfold Add. rewrite Hold. done.
Qed.

Lemma Add_new (c : Storage C) (newCapt : C) :
  capturers c !! Name newCapt = None -> 0 <= wg c ->
  Add c newCapt =
    Some ({| capturers := <[Name newCapt := newCapt]> (capturers c);
             wg := wg c + 1 |}, None).
Proof.
  intros Hnew Hwg. unfold Add, wg_Add. rewrite Hnew.
  destruct (decide (0 <= wg c + 1)); [done | lia].
Qed.

(** [Add] keeps the counter equal to the number of capturers. *)
Lemma Add_counter (c c' : Storage C) (newCapt : C) (r : option error) :
  wg c = Z.of_nat (size (capturers c)) -> Add c newCapt = Some (c', r) ->
  wg c' = Z.of_nat (size (capturers c')).
Proof.
  intros Hinv. unfold Add, wg_Add.
  destruct (capturers c !! Name newCapt) eqn:Hl; [by intros [= <- _] |].
  destruct (decide (0 <= wg c + 1)); simpl; [| discriminate].
  intros [= <- _]. simpl. rewrite map_size_insert_None by done. lia.
Qed.

(** ** The event handler *)

(** An event with the name of a capturer that is held removes it, and
    the counter stays equal to the number of capturers. *)
Lemma handle_event_held (c : Storage C) (e : CapturerEvent) :
  is_Some (capturers c !! from e) -> wg c = Z.of_nat (size (capturers c)) ->
  exists c' l, handle_event c e = Some (c', l) /\
    capturers c' = delete (from e) (capturers c) /\
    wg c' = Z.of_nat (size (capturers c')).
Proof.
  intros [capt Hl] Hinv. unfold handle_event, wg_Done, wg_Add.
  assert (Hsz : size (delete (from e) (capturers c)) = pred (size (capturers c)))
    by (by rewrite map_size_delete, Hl).
  assert (size (capturers c) <> 0%nat)
    by (intros Hz%map_size_empty_inv; by rewrite Hz, lookup_empty in Hl).
  destruct (decide (0 <= wg c + -1)); simpl; [| lia].
  eexists _, _. split; [reflexivity |]. simpl. split; [done | lia].
Qed.

(** An event with a name that is not held leaves the capturers as
    they are, and still takes one off the counter. *)
Lemma handle_event_not_held (c c' : Storage C) (e : CapturerEvent) l :
  capturers c !! from e = None -> handle_event c e = Some (c', l) ->
  capturers c' = capturers c /\ wg c' = wg c - 1.
Proof.
  intros Hl. unfold handle_event, wg_Done, wg_Add.
  destruct (decide (0 <= wg c + -1)); simpl; [| discriminate].
  intros [= <- _]. simpl. rewrite delete_id by done. split; [done | lia].
Qed.

(** ** AddNewOutput *)








(** ** StopAll *)

(** C9. On a nil receiver [StopAll] returns (there is no panic in the
    model of the call), the receiver is still nil, and the only thing
    done is the line written to the log: [Stop] is called on no
    capturer. *)
Theorem StopAll_nil :
  let r := StopAll (C := C) None in
  r.1 = None /\
  r.2 = [Log (tqlog.Info "capture.Storage: StopAll() called on a nil instance" [])] /\
  forall key, StopCalled key ∉ r.2.
Proof.
  simpl. split; [reflexivity |]. split; [reflexivity |].
  intros key Hin. apply list_elem_of_singleton in Hin. discriminate.
Qed.

End Registry.

(** C3. The storage holds [alpha] (and [beta]), each added by [Add], so
    that the counter is the number of capturers.  The first event from
    [alpha] removes it.  A second event from [alpha] finds no capturer
    to remove, and takes one off the counter all the same: with [alpha]
    alone the counter would become negative, which is a panic; with
    [beta] still held the counter becomes 0 while one capturer is
    held. *)
Theorem duplicate_event_breaks_counter :
  Add NewStorage capA = Some (with_alpha, None) /\
  Add with_alpha capBeta = Some (with_alpha_beta, None) /\
  handle_events with_alpha [alpha_event] =
    Some {| capturers := ∅; wg := 0 |} /\
  handle_events with_alpha [alpha_event; alpha_event] = None /\
  exists c',
    handle_events with_alpha_beta [alpha_event; alpha_event] = Some c' /\
    capturers c' !! "alpha"%string = None /\
    size (capturers c') = 1%nat /\
    wg c' = 0 /\
    wg c' <> Z.of_nat (size (capturers c')).
Proof.
  split; [by vm_compute |]. split; [by vm_compute |].
  split; [by vm_compute |]. split; [by vm_compute |].
  eexists. split; [reflexivity |].
  split; [by vm_compute |]. split; [by vm_compute |].
  split; [by vm_compute |]. by vm_compute.
Qed.

Lemma Add_duplicate_rejected_alpha :
  exists c',
    Add with_alpha capB = Some (c', Some "capturer [alpha] already exists"%string) /\
    c' = with_alpha /\ capturers c' !! "alpha"%string = Some capA /\ wg c' = 1.
Proof.
  exact (Add_duplicate_rejected with_alpha capB capA eq_refl).
Defined.


End capture_props.

(* ===================================================================== *)
(** * Properties of the configuration loader *)
(* ===================================================================== *)

Module config_props.
Import config samples.

Section Loader.
Context `{Yaml} {Signer : Type} `{Ssh Signer}.

(** ** getClientConfig *)


(** A target without a name does not get as far as [getClientConfig]:
    [checkForDuplicates] dereferences the name of every target. *)
Remark parseConfig_nameless_target (doc : list byte) conf t ts :
  Unmarshal doc = (conf, None) -> Targets conf = t :: ts -> Name t = None ->
  parseConfig doc = None.
Proof.
  intros Hu Ht Hn. unfold parseConfig, checkForDuplicates. rewrite Hu, Ht.
  simpl. by rewrite Hn.
Qed.

(** ** parseConfig *)

(** C10. When the targets of the parsed document are empty,
    [parseConfig] returns an error (the one of the parser if it failed,
    and [No targets defined in config] otherwise), and so does
    [readConfigFromFile] for a file with this content. *)
Theorem parseConfig_no_targets (doc : list byte) :
  Targets (Unmarshal doc).1 = [] ->
  (exists conf e, parseConfig doc = Some (conf, Some e) /\
     ((Unmarshal doc).2 = None -> e = "No targets defined in config"%string)) /\
  (forall fs fname, files fs !! fname = Some doc ->
     exists e, readConfigFromFile fs fname = Some ({| Targets := [] |}, Some e)).
Proof.
  intros Hempty.
  assert (Hp : exists conf e, parseConfig doc = Some (conf, Some e) /\
            ((Unmarshal doc).2 = None -> e = "No targets defined in config"%string)).
  { unfold parseConfig. destruct (Unmarshal doc) as [conf [e|]]; simpl in *.
    - by eexists _, _.
    - rewrite Hempty. simpl. by eexists _, _. }
  split; [exact Hp |].
  intros fs fname Hf. destruct Hp as (conf & e & Hp & _).
  unfold readConfigFromFile, ReadFile. rewrite Hf, Hp. simpl. eauto.
Qed.

(** ** The sample configuration *)


End Loader.

Import refyaml.


Lemma parseConfig_no_targets_doc :
  (exists conf e, parseConfig empty_targets_doc = Some (conf, Some e) /\
     ((Unmarshal empty_targets_doc).2 = None -> e = "No targets defined in config"%string)) /\
  (forall fs fname, files fs !! fname = Some empty_targets_doc ->
     exists e, readConfigFromFile fs fname = Some ({| Targets := [] |}, Some e)).
Proof.
  apply (parseConfig_no_targets empty_targets_doc). reflexivity.
Defined.


End config_props.

(* ===================================================================== *)
(** * More on MultiOutput *)
(* ===================================================================== *)

Module output_more.
Import goslice sync output samples output_props.

(** ** Write *)

Lemma forward_members_seen ms : forall s p o,
  seen (forward s ms p) o = seen s o ++ mjoin (replicate (count_occ Nat.eq_dec ms o) p).
Proof.
  unfold forward. induction ms as [| m ms IH]; intros s p o; cbn [foldl count_occ].
  { simpl. by rewrite app_nil_r. }
  rewrite IH, sink_Write_seen.
  destruct (Nat.eq_dec m o) as [-> | Hne].
  - rewrite decide_True by done. simpl. by rewrite app_assoc.
  - rewrite decide_False by done. done.
Qed.

Lemma forward_seen_absent ms : forall s p o,
  o ∉ ms -> seen (forward s ms p) o = seen s o.
Proof.
  unfold forward. induction ms as [| m ms IH]; intros s p o Ho; cbn [foldl]; [done |].
  apply not_elem_of_cons in Ho as [Hne Ho].
  rewrite IH by done. by rewrite sink_Write_seen, decide_False.
Qed.

Lemma forward_closed ms : forall s p, closed (forward s ms p) = closed s.
Proof.
  unfold forward. induction ms as [| m ms IH]; intros s p; simpl; [done |].
  by rewrite IH.
Qed.

(** X1. A [Write] that returns hands the bytes of the buffer to every
    member, once per time the member is listed, and to no other sink; it
    closes nothing, keeps the members, the event channel and the counter,
    and reports the whole buffer as written, without error. *)
Theorem Write_forwards_buffer mo s p mo' s' n err :
  Write mo s p = Some (mo', s', (n, err)) ->
  (forall o, seen s' o =
     seen s o ++ mjoin (replicate (count_occ Nat.eq_dec (members mo) o) (bytes p))) /\
  (forall o, o ∉ members mo -> seen s' o = seen s o) /\
  (forall o, NoDup (members mo) -> o ∈ members mo -> seen s' o = seen s o ++ bytes p) /\
  closed s' = closed s /\
  members mo' = members mo /\ events mo' = events mo /\ wg mo' = wg mo /\
  n = len p /\ err = None.
Proof.
  unfold Write. intros Hw.
  destruct (save_header (pcapHeader mo) p) as [hdr|]; simpl in Hw; [| discriminate].
  injection Hw as <- <- <- <-. simpl.
  split; [intros o; apply forward_members_seen |].
  split.
  { intros o Ho. rewrite forward_seen_absent; done. }
  split.
  { intros o Hnd Ho. rewrite forward_seen by done. by rewrite decide_True. }
  split; [apply forward_closed | done].
Qed.

Lemma Write_forwards_buffer_file_sink :
  seen (forward no_sinks [file_sink] (bytes whole_header)) file_sink =
    seen no_sinks file_sink ++ bytes whole_header.
Proof.
  refine (proj1 (proj2 (proj2 (Write_forwards_buffer
            (NewMultiOutput chan [file_sink]) no_sinks whole_header _ _ _ _ eq_refl)))
            file_sink _ _).
  - apply NoDup_singleton.
  - by left.
Defined.

(** X2. When the buffer holds at least the bytes of the header that are
    still missing, [Write] returns and the header is the previous header
    followed by exactly the missing number of bytes from the start of the
    buffer; it is complete afterwards. *)
Theorem Write_captures_missing_prefix mo s p :
  (length (pcapHeader mo) < pcapHeaderSize)%nat -> wf p ->
  (pcapHeaderSize - length (pcapHeader mo) <= len p)%nat ->
  exists mo' s',
    Write mo s p = Some (mo', s', (len p, None)) /\
    pcapHeader mo' =
      pcapHeader mo ++ take (pcapHeaderSize - length (pcapHeader mo)) (bytes p) /\
    length (pcapHeader mo') = pcapHeaderSize.
Proof.
  intros Hlt Hwf Hlen. unfold Write.
  rewrite save_header_missing by done. simpl. eexists _, _.
  split; [reflexivity |]. simpl. split; [done |].
  rewrite length_app, length_take. unfold bytes, wf, cap in *.
  rewrite length_take. lia.
Qed.

Lemma Write_captures_missing_prefix_whole :
  exists mo' s',
    Write fresh no_sinks whole_header = Some (mo', s', (24%nat, None)) /\
    pcapHeader mo' = [] ++ take (24 - 0) (bytes whole_header) /\
    length (pcapHeader mo') = 24%nat.
Proof.
  apply (Write_captures_missing_prefix fresh no_sinks whole_header);
    vm_compute; lia.
Defined.

(** ** The header over a run *)

Lemma step_header st o st' :
  step st o = Some st' ->
  match o with
  | OpWrite p => save_header (pcapHeader st.1) p = Some (pcapHeader st'.1)
  | _ => pcapHeader st'.1 = pcapHeader st.1
  end.
Proof.
  destruct st as [mo s], o as [p | f | e]; simpl.
  - unfold Write. destruct (save_header _ _) as [hdr|]; simpl; [| discriminate].
    by intros [= <-].
  - unfold AddExtMember. destruct (f (events mo)); simpl.
    + destruct (wg_Add 1 (wg mo)); simpl; [| discriminate]. by intros [= <-].
    + by intros [= <-].
  - unfold handle_event. destruct (list_find _ _) as [[i c]|]; simpl.
    + destruct (wg_Done (wg mo)); simpl; [| discriminate]. by intros [= <-].
    + by intros [= <-].
Qed.

Lemma run_header_kept ops : forall st st',
  length (pcapHeader st.1) = pcapHeaderSize ->
  run st ops = Some st' -> pcapHeader st'.1 = pcapHeader st.1.
Proof.
  induction ops as [| o ops IH]; intros st st' Hfull; cbn [run].
  { by intros [= <-]. }
  destruct (step st o) as [st1|] eqn:Hstep; cbn [mbind option_bind]; [| discriminate].
  intros Hrun. apply step_header in Hstep.
  assert (Hsame : pcapHeader st1.1 = pcapHeader st.1).
  { destruct o; try done. rewrite save_header_full in Hstep by lia. congruence. }
  rewrite <- Hsame. apply IH; [congruence | done].
Qed.

(** X3. Once the header holds 24 bytes, no run of [Write], [AddExtMember]
    and events changes it or its length. *)
Theorem run_keeps_complete_header ops st st' :
  length (pcapHeader st.1) = pcapHeaderSize ->
  run st ops = Some st' ->
  pcapHeader st'.1 = pcapHeader st.1 /\ length (pcapHeader st'.1) = pcapHeaderSize.
Proof.
  intros Hfull Hrun. pose proof (run_header_kept ops st st' Hfull Hrun) as Hsame.
  split; [done | congruence].
Qed.

Lemma run_keeps_complete_header_streaming :
  exists st', run (streaming, no_sinks) viewer_crash_run = Some st' /\
              pcapHeader st'.1 = pcap_header.
Proof.
  eexists. split; [reflexivity |].
  exact (proj1 (run_keeps_complete_header viewer_crash_run (streaming, no_sinks) _
                  eq_refl eq_refl)).
Defined.

(** X4. The header buffer of a fan-out is never partial: after any run
    from the constructor it is empty if no [Write] was made, and holds 24
    bytes as soon as one [Write] has returned, whatever the length of its
    buffer. *)
Theorem header_empty_or_complete ch outputers s0 ops mo s :
  run (NewMultiOutput ch outputers, s0) ops = Some (mo, s) ->
  (pcapHeader mo = [] /\ Forall (fun o => forall p, o <> OpWrite p) ops) \/
  (length (pcapHeader mo) = pcapHeaderSize /\ exists p, OpWrite p ∈ ops).
Proof.
  assert (Hgen : forall ops st st',
    (pcapHeader st.1 = [] \/ length (pcapHeader st.1) = pcapHeaderSize) ->
    run st ops = Some st' ->
    (pcapHeader st'.1 = pcapHeader st.1 /\ Forall (fun o => forall p, o <> OpWrite p) ops) \/
    (length (pcapHeader st'.1) = pcapHeaderSize /\ exists p, OpWrite p ∈ ops)).
  { clear. induction ops as [| o ops IH]; intros st st' Hst; cbn [run].
    { intros [= <-]. left. by split. }
    destruct (step st o) as [st1|] eqn:Hstep; cbn [mbind option_bind]; [| discriminate].
    intros Hrun. apply step_header in Hstep. destruct o as [p | f | e].
    - right. assert (Hfull : length (pcapHeader st1.1) = pcapHeaderSize).
      { eapply save_header_completes; [exact Hstep |]. destruct Hst as [-> | ->]; simpl; lia. }
      split; [| exists p; by left].
      by rewrite (run_header_kept ops st1 st').
    - destruct (IH st1 st') as [[Hh Hall] | [Hh [p Hp]]]; [by rewrite Hstep | done | |].
      + left. split; [congruence |]. by constructor.
      + right. split; [done |]. exists p. by right.
    - destruct (IH st1 st') as [[Hh Hall] | [Hh [p Hp]]]; [by rewrite Hstep | done | |].
      + left. split; [congruence |]. by constructor.
      + right. split; [done |]. exists p. by right. }
  intros Hrun.
  destruct (Hgen ops (NewMultiOutput ch outputers, s0) (mo, s)) as [[Hh Hall] | ?];
    [by left | done | left | by right].
  by split.
Qed.

Lemma header_empty_or_complete_short_read :
  exists mo s,
    run (fresh, no_sinks) early_viewer_run = Some (mo, s) /\
    ((pcapHeader mo = [] /\ Forall (fun o => forall p, o <> OpWrite p) early_viewer_run) \/
     (length (pcapHeader mo) = pcapHeaderSize /\ exists p, OpWrite p ∈ early_viewer_run)).
Proof.
  eexists _, _. split; [reflexivity |].
  exact (header_empty_or_complete chan [] no_sinks early_viewer_run _ _ eq_refl).
Defined.

(** ** AddExtMember *)

(** X5. [AddExtMember] with a counter that is not negative.  When the
    factory yields no sink, the call returns the creation error and
    nothing has changed.  When it yields a sink, the call returns no
    error: the sink has been handed the header captured so far and
    nothing else, it is the last member, the counter is one higher, the
    header is as before, and no other sink has been handed anything. *)
Theorem AddExtMember_outcome mo s newOutFn :
  0 <= wg mo ->
  match newOutFn (events mo) with
  | None =>
      AddExtMember mo s newOutFn =
        Some (mo, s, Some "Error creating Outputer with factory function"%string)
  | Some newMember =>
      exists mo' s',
        AddExtMember mo s newOutFn = Some (mo', s', None) /\
        members mo' = members mo ++ [newMember] /\
        wg mo' = wg mo + 1 /\
        pcapHeader mo' = pcapHeader mo /\
        seen s' newMember = seen s newMember ++ pcapHeader mo /\
        (forall o, o <> newMember -> seen s' o = seen s o) /\
        closed s' = closed s
  end.
Proof.
  intros Hwg. unfold AddExtMember, wg_Add.
  destruct (newOutFn (events mo)) as [newMember|]; [| done].
  destruct (decide (0 <= wg mo + 1)); [| lia]. simpl.
  eexists _, _. split; [reflexivity |]. simpl.
  repeat split; try done.
  - by rewrite sink_Write_seen, decide_True.
  - intros o Hne. by rewrite sink_Write_seen, decide_False.
Qed.

Lemma AddExtMember_outcome_viewer :
  exists mo' s',
    AddExtMember streaming no_sinks viewer_factory = Some (mo', s', None) /\
    members mo' = [file_sink] ++ [viewer] /\
    wg mo' = 0 + 1 /\
    pcapHeader mo' = pcap_header /\
    seen s' viewer = seen no_sinks viewer ++ pcap_header /\
    (forall o, o <> viewer -> seen s' o = seen no_sinks o) /\
    closed s' = closed no_sinks.
Proof.
  apply (AddExtMember_outcome streaming no_sinks viewer_factory). simpl. lia.
Defined.

(** ** The event handler *)

(** X6. An event from a sink that is not a member is ignored: the
    fan-out is left as it is. *)
Theorem handle_event_unknown_sender mo e :
  from e ∉ members mo -> handle_event mo e = Some mo.
Proof.
  intros Hnot. unfold handle_event.
  destruct (list_find _ _) as [[i c]|] eqn:Hfind; [| done].
  apply list_find_Some in Hfind as (Hl & -> & _).
  apply list_elem_of_lookup_2 in Hl. done.
Qed.

Lemma handle_event_unknown_sender_viewer :
  handle_event streaming {| from := viewer; event := OutputerDead |} = Some streaming.
Proof.
  apply handle_event_unknown_sender. simpl. unfold viewer, file_sink.
  apply not_elem_of_cons. split; [discriminate | apply not_elem_of_nil].
Defined.

(** X7. An event from a member, while the counter is positive: the first
    entry of the sender is taken out of the members, the others stay in
    their order, and the counter is one lower; the header is not
    touched. *)
Theorem handle_event_removes_first mo e :
  from e ∈ members mo -> 0 < wg mo ->
  exists mo' l1 l2,
    handle_event mo e = Some mo' /\
    members mo = l1 ++ from e :: l2 /\ (from e ∉ l1) /\
    members mo' = l1 ++ l2 /\
    wg mo' = wg mo - 1 /\
    pcapHeader mo' = pcapHeader mo /\ events mo' = events mo.
Proof.
  intros Hin Hwg. unfold handle_event, wg_Done, wg_Add.
  destruct (list_find_elem_of (fun c => c = from e) (members mo) (from e) Hin eq_refl)
    as [[i c] Hfind].
  rewrite Hfind. apply list_find_Some in Hfind as (Hl & -> & Hfirst).
  destruct (decide (0 <= wg mo + -1)); [| lia]. simpl.
  eexists _, (take i (members mo)), (drop (S i) (members mo)).
  split; [reflexivity |]. simpl.
  split; [by rewrite take_drop_middle |].
  split; [| split; [done | split; [lia | done]]].
  intros (j & Hj & Hlt)%elem_of_take. by eapply Hfirst.
Qed.

Lemma handle_event_removes_first_viewer :
  exists mo' l1 l2,
    handle_event {| members := [file_sink; viewer]; pcapHeader := pcap_header;
                    events := chan; wg := 1 |}
                 {| from := viewer; event := OutputerDead |} = Some mo' /\
    [file_sink; viewer] = l1 ++ viewer :: l2 /\ (viewer ∉ l1) /\
    members mo' = l1 ++ l2 /\
    wg mo' = 1 - 1 /\
    pcapHeader mo' = pcap_header /\ events mo' = chan.
Proof.
  apply (handle_event_removes_first
           {| members := [file_sink; viewer]; pcapHeader := pcap_header;
              events := chan; wg := 1 |}
           {| from := viewer; event := OutputerDead |}).
  - simpl. right. by left.
  - simpl. lia.
Defined.

(** X8. An event from a member while the counter is zero (a sink handed
    to the constructor that announces its death, no sink having been
    added) makes the handler panic: the member is found and [wg.Done()]
    takes the counter below zero. *)
Theorem handle_event_uncounted_member_panics mo e :
  from e ∈ members mo -> wg mo <= 0 -> handle_event mo e = None.
Proof.
  intros Hin Hwg. unfold handle_event, wg_Done, wg_Add.
  destruct (list_find_elem_of (fun c => c = from e) (members mo) (from e) Hin eq_refl)
    as [[i c] ->].
  destruct (decide (0 <= wg mo + -1)); [lia | done].
Qed.

Lemma handle_event_uncounted_member_panics_file_sink :
  handle_event (NewMultiOutput chan [file_sink])
               {| from := file_sink; event := OutputerDead |} = None.
Proof.
  apply handle_event_uncounted_member_panics.
  - simpl. by left.
  - simpl. lia.
Defined.

(** ** Close *)

Lemma foldl_sink_Close ms : forall s,
  received (foldl sink_Close s ms) = received s /\
  closed (foldl sink_Close s ms) = list_to_set ms ∪ closed s.
Proof.
  induction ms as [| m ms IH]; intros s; simpl.
  { split; [done |]. by rewrite (left_id_L ∅ (∪)). }
  destruct (IH (sink_Close s m)) as [-> ->]. simpl. split; [done |].
  by rewrite (assoc_L (∪)), (comm_L (∪) (list_to_set ms) {[m]}).
Qed.

(** X9. [Close] closes every member and no other sink, and hands no byte
    to any sink; it gets past the wait on the counter exactly when the
    counter is zero, and otherwise stays waiting for as many events as
    the counter tells.  A fan-out as the constructor made it, with any
    sinks, is closed without waiting. *)
Theorem Close_closes_members mo s :
  (exists s',
     Close mo s = (if bool_decide (wg mo = 0) then Closed s' else WaitsFor (wg mo) s') /\
     received s' = received s /\
     closed s' = list_to_set (members mo) ∪ closed s) /\
  (forall ch outputers, exists s', Close (NewMultiOutput ch outputers) s = Closed s').
Proof.
  split.
  - exists (foldl sink_Close s (members mo)).
    destruct (foldl_sink_Close (members mo) s) as [Hr Hc].
    split; [| done]. unfold Close, wg_Wait_returns. by destruct (bool_decide (wg mo = 0)).
  - intros ch outputers. by eexists.
Qed.

(** ** Header replay *)



End output_more.

(* ===================================================================== *)
(** * More on Storage *)
(* ===================================================================== *)

Module capture_more.
Import sync capture registry samples capture_props.

Section Registry.
Context {C : Type} `{Capturer C}.

(** ** Add and the event handler *)

(** X10. [Add] of a capturer whose name is not held: the capturer is
    stored under its name, the capturers under other names are the ones
    from before, the counter is one higher and the storage is not
    empty. *)
Theorem Add_registers (c : Storage C) (newCapt : C) :
  capturers c !! Name newCapt = None -> 0 <= wg c ->
  exists c',
    Add c newCapt = Some (c', None) /\
    capturers c' !! Name newCapt = Some newCapt /\
    (forall k, k <> Name newCapt -> capturers c' !! k = capturers c !! k) /\
    wg c' = wg c + 1 /\
    size (capturers c') = S (size (capturers c)) /\
    Empty c' = false.
Proof.
  intros Hnew Hwg. rewrite Add_new by done. eexists. split; [reflexivity |].
  simpl. split; [apply lookup_insert_eq |].
  split; [intros k Hk; by apply lookup_insert_ne |]. split; [done |].
  assert (Hsz := map_size_insert_None (Name newCapt) newCapt (capturers c) Hnew).
  split; [done |]. unfold Empty. simpl. apply bool_decide_eq_false. lia.
Qed.

(** X11. A capturer under a new name is added and its lifecycle event is
    handled: the capturers and the counter are back to what they were. *)
Theorem Add_then_event_restores (c : Storage C) (newCapt : C) (ev : Z) :
  capturers c !! Name newCapt = None -> 0 <= wg c ->
  exists c1 c2 log,
    Add c newCapt = Some (c1, None) /\
    handle_event c1 {| from := Name newCapt; event := ev |} = Some (c2, log) /\
    c2 = c.
Proof.
  intros Hnew Hwg. rewrite Add_new by done. eexists _, _, _.
  split; [reflexivity |]. unfold handle_event, wg_Done, wg_Add. simpl.
  destruct (decide (0 <= wg c + 1 + -1)); [| lia]. simpl.
  split; [reflexivity |]. destruct c as [caps n]. simpl in *. f_equal.
  - by rewrite delete_insert_id.
  - lia.
Qed.

Lemma Add_duplicate_held (c : Storage C) (newCapt old : C) :
  capturers c !! Name newCapt = Some old ->
  exists err, Add c newCapt = Some (c, Some err).
Proof. intros Hold. unfold Add. rewrite Hold. by eexists. Qed.

(** ** Runs *)

Lemma run_counter (ops : list (op C)) : forall c : Storage C,
  wg c = Z.of_nat (size (capturers c)) ->
  announced (dom (capturers c)) ops ->
  exists c',
    run c ops = Some c' /\
    wg c' = Z.of_nat (size (capturers c')) /\
    dom (capturers c') = held_after (dom (capturers c)) ops.
Proof.
  induction ops as [| o ops IH]; intros c Hinv Hops; cbn [run held_after].
  { by exists c. }
  destruct o as [x | e]; cbn [announced step] in *.
  - destruct (capturers c !! Name x) as [old|] eqn:Hl.
    + destruct (Add_duplicate_held c x old Hl) as [err ->]. cbn [mbind option_bind fst].
      assert (Hdom : {[Name x]} ∪ dom (capturers c) = dom (capturers c)).
      { apply elem_of_dom_2 in Hl. apply subseteq_union_1_L.
        by apply singleton_subseteq_l. }
      rewrite Hdom in *. by apply IH.
    + rewrite Add_new by (done || lia). cbn [mbind option_bind fst].
      destruct (IH {| capturers := <[Name x := x]> (capturers c); wg := wg c + 1 |})
        as (c' & Hrun & Hwg & Hdom); simpl.
      * rewrite map_size_insert_None by done. lia.
      * by rewrite dom_insert_L.
      * exists c'. simpl in Hdom. by rewrite dom_insert_L in Hdom.
  - destruct Hops as [Hheld Hops]. apply elem_of_dom in Hheld.
    destruct (handle_event_held c e Hheld Hinv) as (c1 & l & -> & Hcaps & Hwg1).
    cbn [mbind option_bind fst].
    destruct (IH c1 Hwg1) as (c' & Hrun & Hwg & Hdom).
    + by rewrite Hcaps, dom_delete_L.
    + exists c'. by rewrite Hcaps, dom_delete_L in Hdom.
Qed.

(** X12. From a new storage, a run of [Add] and of events in which every
    event carries the name of a capturer held at that moment never
    panics and keeps the counter of the wait group equal to the number
    of capturers; the storage is empty afterwards exactly when every
    name added has been taken out by an event. *)
Theorem registry_counter (ops : list (op C)) :
  announced ∅ ops ->
  exists c' : Storage C,
    run NewStorage ops = Some c' /\
    wg c' = Z.of_nat (size (capturers c')) /\
    dom (capturers c') = held_after ∅ ops /\
    (Empty c' = true <-> held_after ∅ ops = ∅).
Proof.
  intros Hops.
  destruct (run_counter ops NewStorage) as (c' & Hrun & Hwg & Hdom).
  { simpl. by rewrite map_size_empty. }
  { simpl. by rewrite dom_empty_L. }
  simpl in Hdom. rewrite dom_empty_L in Hdom.
  exists c'. split; [done |]. split; [done |]. split; [done |].
  rewrite <- Hdom. unfold Empty. rewrite bool_decide_eq_true, map_size_empty_iff.
  by rewrite dom_empty_iff_L.
Qed.

(** ** StopAll and AddNewOutput over all capturers *)

(** A loop over the entries of a map that replaces each value and
    records what it did. *)
Lemma foldl_replace_entries {E : Type} (h : C -> C) (e : string * C -> list E)
    (g : gmap string C * list E -> string * C -> gmap string C * list E) :
  (forall acc kv, g acc kv = (<[kv.1 := h kv.2]> acc.1, acc.2 ++ e kv)) ->
  forall (l : list (string * C)) acc,
    NoDup l.*1 ->
    let r := foldl g acc l in
    (forall k c, (k, c) ∈ l -> r.1 !! k = Some (h c)) /\
    (forall k, k ∉ l.*1 -> r.1 !! k = acc.1 !! k) /\
    r.2 = acc.2 ++ mjoin (e <$> l).
Proof.
  intros Hg. induction l as [| [k0 c0] l IH]; intros acc Hnd; cbn [foldl].
  { simpl. split; [by intros k c ?%elem_of_nil |]. split; [done |]. by rewrite app_nil_r. }
  rewrite fmap_cons in Hnd. apply NoDup_cons in Hnd as [Hk0 Hnd].
  destruct (IH (g acc (k0, c0)) Hnd) as (Hin & Hout & Heff).
  rewrite Hg in Hin, Hout, Heff. rewrite Hg. simpl in *.
  split; [| split].
  - intros k c [[= -> ->] | Hkc]%elem_of_cons.
    + rewrite Hout by done. apply lookup_insert_eq.
    + by apply Hin.
  - intros k [Hne Hk]%not_elem_of_cons. rewrite Hout by done.
    by rewrite lookup_insert_ne.
  - rewrite Heff. by rewrite <- app_assoc.
Qed.

Lemma foldl_replace_map {E : Type} (h : C -> C) (e : string * C -> list E)
    (g : gmap string C * list E -> string * C -> gmap string C * list E)
    (m : gmap string C) (effs : list E) :
  (forall acc kv, g acc kv = (<[kv.1 := h kv.2]> acc.1, acc.2 ++ e kv)) ->
  let r := foldl g (m, effs) (map_to_list m) in
  (forall k, r.1 !! k = h <$> m !! k) /\
  r.2 = effs ++ mjoin (e <$> map_to_list m).
Proof.
  intros Hg.
  destruct (foldl_replace_entries h e g Hg (map_to_list m) (m, effs)
              (NoDup_fst_map_to_list m)) as (Hin & Hout & Heff).
  split; [| done]. intros k. destruct (m !! k) as [c|] eqn:Hl; simpl.
  - apply Hin. by apply elem_of_map_to_list.
  - rewrite Hout; [done |]. intros ([k' c] & -> & Hkc)%list_elem_of_fmap.
    apply elem_of_map_to_list in Hkc. simpl in Hl. congruence.
Qed.

Lemma stop_one_eq (acc : gmap string C * list effect) (kv : string * C) :
  stop_one acc kv =
    (<[kv.1 := (Stop kv.2).1]> acc.1,
     acc.2 ++ StopCalled kv.1 ::
       match (Stop kv.2).2 with
       | Some e =>
           let errMsg := "Can't stop " +:+ Name (Stop kv.2).1 +:+ ". " +:+ e in
           [Log (tqlog.Error errMsg []); Log (tqlog.Feedback errMsg [])]
       | None => []
       end).
Proof. unfold stop_one. by destruct (Stop kv.2) as [capt [e|]]. Qed.

Lemma stop_calls_of_entries (l : list (string * C)) (e : string * C -> list effect) :
  (forall kv, omap stop_called_of (e kv) = [kv.1]) ->
  omap stop_called_of (mjoin (e <$> l)) = l.*1.
Proof.
  intros He. induction l as [| kv l IH]; [done |].
  rewrite fmap_cons. simpl. rewrite omap_app, He, IH. done.
Qed.

(** X13. [StopAll] on a storage: [Stop] is called on every capturer
    held, once on each, and on nothing else; every capturer is still held
    under its name, as [Stop] left it, and the counter is not touched (the
    capturers are taken out by the event handler only).  The feedback holds
    one message per capturer whose [Stop] failed. *)
Theorem StopAll_stops_each_once (s : Storage C) :
  exists s' effs,
    StopAll (Some s) = (Some s', effs) /\
    (forall k, capturers s' !! k = (fun c => (Stop c).1) <$> capturers s !! k) /\
    wg s' = wg s /\
    size (capturers s') = size (capturers s) /\
    NoDup (omap stop_called_of effs) /\
    (forall k, k ∈ omap stop_called_of effs <-> is_Some (capturers s !! k)).
Proof.
  unfold StopAll.
  destruct (foldl_replace_map (fun c => (Stop c).1) _ stop_one (capturers s)
              [Log (tqlog.Info "capture.Storage: Calling Stop for each capturer" [])]
              stop_one_eq) as [Hm Heff].
  eexists _, _. split; [reflexivity |]. simpl.
  split; [exact Hm |]. split; [done |].
  assert (Hcalls : omap stop_called_of
            (foldl stop_one
               (capturers s,
                [Log (tqlog.Info "capture.Storage: Calling Stop for each capturer" [])])
               (map_to_list (capturers s))).2 = (map_to_list (capturers s)).*1).
  { rewrite Heff, omap_app. simpl. apply stop_calls_of_entries.
    intros kv. simpl. by destruct ((Stop kv.2).2). }
  split; [| split].
  - match goal with |- size ?m' = _ =>
      replace m' with ((fun c => (Stop c).1) <$> capturers s)
    end.
    + apply map_size_fmap.
    + apply map_eq. intros k. by rewrite Hm, lookup_fmap.
  - rewrite Hcalls. apply NoDup_fst_map_to_list.
  - intros k. rewrite Hcalls. rewrite list_elem_of_fmap. split.
    + intros ([k' c] & -> & Hkc). apply elem_of_map_to_list in Hkc. by eexists.
    + intros [c Hc]. exists (k, c). split; [done |]. by apply elem_of_map_to_list.
Qed.

Lemma add_outputer_eq factFn (acc : gmap string C * list effect) (kv : string * C) :
  add_outputer factFn kv.1 kv.2 acc =
    (<[kv.1 := (AddOutputer kv.2 factFn).1]> acc.1,
     acc.2 ++ AddOutputerCalled kv.1 ::
       match (AddOutputer kv.2 factFn).2 with
       | Some _ =>
           [Log (tqlog.Error "Error adding Outputer to capturer %s"
                   [Name (AddOutputer kv.2 factFn).1])]
       | None => []
       end).
Proof. unfold add_outputer. by destruct (AddOutputer kv.2 factFn) as [capt [e|]]. Qed.

Lemma add_calls_of_entries (l : list (string * C)) (e : string * C -> list effect) :
  (forall kv, omap add_outputer_of (e kv) = [kv.1] /\ omap feedback_of (e kv) = []) ->
  omap add_outputer_of (mjoin (e <$> l)) = l.*1 /\
  omap feedback_of (mjoin (e <$> l)) = [].
Proof.
  intros He. induction l as [| kv l [IH1 IH2]]; [done |].
  rewrite fmap_cons. simpl. rewrite !omap_app, IH1, IH2.
  by destruct (He kv) as [-> ->].
Qed.

(** X14. [AddNewOutput] without names.  When no capturer is held, the
    storage is left as it is and the feedback is the one line telling to
    use start first.  Otherwise [AddOutputer] is called on every capturer
    held, once on each; every capturer is still held under its name, as
    [AddOutputer] left it, the counter is not touched, and there is no
    feedback. *)
Theorem AddNewOutput_without_names (c : Storage C) factFn :
  let r := AddNewOutput c factFn [] in
  (capturers c = ∅ ->
     r.1 = c /\
     omap feedback_of r.2 = ["There are no running capturers. Use start first." +:+ nl] /\
     omap add_outputer_of r.2 = []) /\
  (capturers c <> ∅ ->
     (forall k, capturers r.1 !! k =
                  (fun capt => (AddOutputer capt factFn).1) <$> capturers c !! k) /\
     wg r.1 = wg c /\
     omap feedback_of r.2 = [] /\
     NoDup (omap add_outputer_of r.2) /\
     (forall k, k ∈ omap add_outputer_of r.2 <-> is_Some (capturers c !! k))).
Proof.
  unfold AddNewOutput. simpl. split.
  - intros Hempty. destruct (decide (size (capturers c) = 0%nat)) as [_ | Hnz]; [done |].
    exfalso. apply Hnz. rewrite Hempty. apply map_size_empty.
  - intros Hne. destruct (decide (size (capturers c) = 0%nat)) as [Hz | _].
    { by apply map_size_empty_iff in Hz. }
    destruct (foldl_replace_map (fun capt => (AddOutputer capt factFn).1) _
                (fun acc kv => add_outputer factFn kv.1 kv.2 acc) (capturers c) []
                (add_outputer_eq factFn)) as [Hm Heff].
    simpl in *. split; [exact Hm |]. split; [done |].
    destruct (add_calls_of_entries (map_to_list (capturers c))
                (fun kv => AddOutputerCalled kv.1 ::
                   match (AddOutputer kv.2 factFn).2 with
                   | Some _ =>
                       [Log (tqlog.Error "Error adding Outputer to capturer %s"
                               [Name (AddOutputer kv.2 factFn).1])]
                   | None => []
                   end)) as [Hcalls Hfb].
    { intros kv. simpl. by destruct ((AddOutputer kv.2 factFn).2). }
    rewrite Heff. split; [exact Hfb |]. rewrite Hcalls.
    split; [apply NoDup_fst_map_to_list |].
    intros k. rewrite list_elem_of_fmap. split.
    + intros ([k' capt] & -> & Hkc). apply elem_of_map_to_list in Hkc. by eexists.
    + intros [capt Hc]. exists (k, capt). split; [done |]. by apply elem_of_map_to_list.
Qed.

End Registry.

Lemma registry_counter_alpha_beta :
  exists c' : Storage probe,
    run NewStorage [OpAdd capA; OpAdd capBeta; OpEvent alpha_event] = Some c' /\
    wg c' = Z.of_nat (size (capturers c')) /\
    dom (capturers c') = held_after ∅ [OpAdd capA; OpAdd capBeta; OpEvent alpha_event] /\
    (Empty c' = true <->
     held_after ∅ [OpAdd capA; OpAdd capBeta; OpEvent alpha_event] = ∅).
Proof.
  apply (registry_counter [OpAdd capA; OpAdd capBeta; OpEvent alpha_event]).
  simpl. split; [| done]. set_solver.
Defined.

Lemma Add_registers_beta :
  exists c',
    Add with_alpha capBeta = Some (c', None) /\
    capturers c' !! Name capBeta = Some capBeta /\
    (forall k, k <> Name capBeta -> capturers c' !! k = capturers with_alpha !! k) /\
    wg c' = wg with_alpha + 1 /\
    size (capturers c') = S (size (capturers with_alpha)) /\
    Empty c' = false.
Proof.
  apply (Add_registers with_alpha capBeta); [reflexivity | simpl; lia].
Defined.

Lemma Add_then_event_restores_beta :
  exists c1 c2 log,
    Add with_alpha capBeta = Some (c1, None) /\
    handle_event c1 {| from := Name capBeta; event := CapturerDead |} = Some (c2, log) /\
    c2 = with_alpha.
Proof.
  apply (Add_then_event_restores with_alpha capBeta CapturerDead);
    [reflexivity | simpl; lia].
Defined.

Lemma AddNewOutput_without_names_samples :
  (let r := AddNewOutput (NewStorage (C := probe)) viewer_factory [] in
   r.1 = NewStorage /\
   omap feedback_of r.2 = ["There are no running capturers. Use start first." +:+ nl] /\
   omap add_outputer_of r.2 = []) /\
  (let r := AddNewOutput with_alpha_beta viewer_factory [] in
   (forall k, capturers r.1 !! k =
                (fun capt => (AddOutputer capt viewer_factory).1) <$>
                  capturers with_alpha_beta !! k) /\
   wg r.1 = wg with_alpha_beta /\
   omap feedback_of r.2 = [] /\
   NoDup (omap add_outputer_of r.2) /\
   (forall k, k ∈ omap add_outputer_of r.2 <-> is_Some (capturers with_alpha_beta !! k))).
Proof.
  split.
  - apply (proj1 (AddNewOutput_without_names (NewStorage (C := probe)) viewer_factory)).
    reflexivity.
  - apply (proj2 (AddNewOutput_without_names with_alpha_beta viewer_factory)).
    intros Hempty. apply (f_equal (lookup "alpha"%string)) in Hempty.
    vm_compute in Hempty. discriminate.
Defined.

End capture_more.

(* ===================================================================== *)
(** * More on the configuration loader *)
(* ===================================================================== *)

Module config_more.
Import config commands samples config_props.

(** ** checkForDuplicates *)

Lemma check_names_accepts (ts : list target) : forall nameSet : gset string,
  check_names nameSet ts = Some None <->
  exists names, mapM Name ts = Some names /\ NoDup names /\
                forall n, n ∈ names -> n ∉ nameSet.
Proof.
  induction ts as [| t ts IH]; intros nameSet; simpl.
  { split; [intros _; exists []; repeat split; [constructor | by intros n ?%elem_of_nil] |].
    done. }
  destruct (Name t) as [n|]; simpl; [| split; [done | by intros (? & ? & _)]].
  destruct (decide (n ∈ nameSet)) as [Hin | Hout].
  - split; [done |]. intros (names & Hm & _ & Hfresh).
    destruct (mapM Name ts) as [k|]; simpl in Hm; [| done].
    injection Hm as <-. exfalso. apply (Hfresh n); [by left | done].
  - rewrite IH. split.
    + intros (names & -> & Hnd & Hfresh). exists (n :: names). simpl.
      split; [done |]. split.
      * apply NoDup_cons. split; [| done]. intros Hn. apply (Hfresh n Hn).
        apply elem_of_union. left. by apply elem_of_singleton.
      * intros m [-> | Hm]%elem_of_cons; [done |]. specialize (Hfresh m Hm).
        intros Hin. apply Hfresh. apply elem_of_union. by right.
    + intros (names & Hm & Hnd & Hfresh).
      destruct (mapM Name ts) as [k|]; simpl in Hm; [| done].
      injection Hm as <-. apply NoDup_cons in Hnd as [Hn Hnd].
      exists k. split; [done |]. split; [done |].
      intros m Hm. apply not_elem_of_union. split.
      * intros ->%elem_of_singleton. done.
      * apply Hfresh. by right.
Qed.

Lemma check_names_rejects (ts : list target) : forall (nameSet : gset string) e,
  check_names nameSet ts = Some (Some e) ->
  exists n pre t post,
    ts = pre ++ t :: post /\ Name t = Some n /\
    (n ∈ nameSet \/ Some n ∈ Name <$> pre) /\
    e = "target " +:+ n +:+ " is defined more than once".
Proof.
  induction ts as [| t ts IH]; intros nameSet e; simpl; [done |].
  destruct (Name t) as [n|] eqn:Hn; simpl; [| done].
  destruct (decide (n ∈ nameSet)) as [Hin | Hout].
  - intros [= <-]. exists n, [], t, ts.
    split; [done |]. split; [done |]. split; [by left | done].
  - intros (m & pre & t' & post & -> & Ht' & Hdup & ->)%IH.
    exists m, (t :: pre), t', post. split; [done |]. split; [done |]. split; [| done].
    rewrite fmap_cons, Hn.
    destruct Hdup as [[->%elem_of_singleton | Hm]%elem_of_union | Hm];
      [right; by left | by left | right; by right].
Qed.

Lemma checkForDuplicates_accepts (conf : configParams) :
  checkForDuplicates conf = Some None <->
  exists names, mapM Name (Targets conf) = Some names /\ NoDup names.
Proof.
  unfold checkForDuplicates. rewrite check_names_accepts. split.
  - intros (names & ? & ? & _). by exists names.
  - intros (names & ? & ?). exists names. repeat split; [done | done |].
    intros n _. apply not_elem_of_empty.
Qed.

(** X15. [checkForDuplicates] returns no error exactly when every target
    has a name and the names are pairwise different.  When it returns an
    error, the error names a target whose name is also the name of a
    target earlier in the list. *)
Theorem checkForDuplicates_spec (conf : configParams) :
  (checkForDuplicates conf = Some None <->
   exists names, mapM Name (Targets conf) = Some names /\ NoDup names) /\
  (forall e, checkForDuplicates conf = Some (Some e) ->
     exists n pre t post,
       Targets conf = pre ++ t :: post /\ Name t = Some n /\
       Some n ∈ Name <$> pre /\
       e = "target " +:+ n +:+ " is defined more than once").
Proof.
  split; [apply checkForDuplicates_accepts |]. unfold checkForDuplicates.
  intros e (n & pre & t & post & ? & ? & [Hin | Hin] & ?)%check_names_rejects.
  -
    by apply not_elem_of_empty in Hin.
  - by exists n, pre, t, post.
Qed.

Section Loader.
Context `{Yaml} {Signer : Type} `{Ssh Signer}.

(** ** parseConfig, readConfigFromFile, getTargetsList *)

Lemma parseConfig_accepted (doc : list byte) (conf : configParams) :
  parseConfig doc = Some (conf, None) ->
  Unmarshal doc = (conf, None) /\ Targets conf <> [] /\
  exists names, mapM Name (Targets conf) = Some names /\ NoDup names.
Proof.
  unfold parseConfig. destruct (Unmarshal doc) as [conf' [e|]]; simpl; [done |].
  destruct (decide (length (Targets conf') = 0%nat)) as [Hz | Hnz]; [done |].
  pose proof (checkForDuplicates_accepts conf') as Hchk.
  destruct (checkForDuplicates conf') as [[e|]|]; simpl; try done.
  intros [= <-]. split; [done |]. split; [by destruct (Targets conf') |].
  by apply Hchk.
Qed.

(** X16. [parseConfig] returns a configuration without error exactly
    when the parser accepted the document, the list of targets is not
    empty, every target has a name and no name occurs twice; the
    configuration returned is the one the parser produced. *)
Theorem parseConfig_accepts_iff (doc : list byte) (conf : configParams) :
  parseConfig doc = Some (conf, None) <->
  Unmarshal doc = (conf, None) /\ Targets conf <> [] /\
  exists names, mapM Name (Targets conf) = Some names /\ NoDup names.
Proof.
  unfold parseConfig. destruct (Unmarshal doc) as [conf' [e|]]; simpl.
  { split; [done | by intros [[= _ ?] _]]. }
  destruct (decide (length (Targets conf') = 0%nat)) as [Hz | Hnz].
  { split; [done |]. intros ([= ->] & Hne & _). by destruct (Targets conf). }
  pose proof (checkForDuplicates_accepts conf') as Hchk.
  destruct (checkForDuplicates conf') as [[e|]|]; simpl.
  - split; [done |]. intros ([= ->] & _ & Hnames). by apply Hchk in Hnames.
  - split.
    + intros [= <-]. split; [done |]. split; [by destruct (Targets conf') |].
      by apply Hchk.
    + by intros ([= ->] & _).
  - split; [done |]. intros ([= ->] & _ & Hnames). by apply Hchk in Hnames.
Qed.

(** X17. For a configuration that [parseConfig] returned without error,
    [getTargetsList] does not panic: it returns the names of the targets,
    one per target, in their order, no name twice, and the list is not
    empty. *)
Theorem getTargetsList_of_parsed (doc : list byte) (conf : configParams) :
  parseConfig doc = Some (conf, None) ->
  exists names,
    getTargetsList conf = Some names /\
    Some <$> names = Name <$> Targets conf /\
    NoDup names /\ names <> [].
Proof.
  intros (_ & Hne & names & Hm & Hnd)%parseConfig_accepted.
  exists names. unfold getTargetsList. split; [done |].
  apply mapM_Some in Hm. split; [| split; [done |]].
  - clear Hne Hnd. induction Hm as [| t n ts ns Hn Hrest IH]; [done |].
    by rewrite !fmap_cons, Hn, IH.
  - intros ->. apply Forall2_nil_inv_r in Hm. done.
Qed.

(** X18. [readConfigFromFile]: for a file that does not exist it returns
    the error of the read with the hint to run init, for a file that
    [parseConfig] rejects it returns that error behind the name of the
    file, in both cases with an empty configuration; it returns a
    configuration without error exactly when the file exists and
    [parseConfig] accepts its content. *)
Theorem readConfigFromFile_outcomes (fs : FS) (fname : string) :
  (files fs !! fname = None ->
     exists e, readConfigFromFile fs fname =
       Some ({| Targets := [] |},
             Some (e +:+ ". Run init subcommand to generate empty config or provide path to existing config with -c"))) /\
  (forall content conf e,
     files fs !! fname = Some content -> parseConfig content = Some (conf, Some e) ->
     readConfigFromFile fs fname =
       Some ({| Targets := [] |}, Some ("Error parsing " +:+ fname +:+ ": " +:+ e))) /\
  (forall conf,
     readConfigFromFile fs fname = Some (conf, None) <->
     exists content, files fs !! fname = Some content /\
                     parseConfig content = Some (conf, None)).
Proof.
  unfold readConfigFromFile, ReadFile. split; [| split].
  - intros ->. by eexists.
  - intros content conf e -> ->. done.
  - intros conf. destruct (files fs !! fname) as [content|]; simpl.
    + destruct (parseConfig content) as [[conf' [e|]]|] eqn:Hp; simpl.
      * split; [done |]. intros (? & [= <-] & Hq). congruence.
      * split; [intros [= <-]; by eexists |].
        intros (? & [= <-] & Hq). congruence.
      * split; [done |]. intros (? & [= <-] & Hq). congruence.
    + split; [done | by intros (? & ? & _)].
Qed.

(** ** generateSampleConfig *)


(** ** getClientConfig and the configuration of the capturer *)

(** A result that is not an error comes from a target that passed every
    check. *)
Lemma getClientConfig_accepts (fs : FS) (t : target) :
  let r := getClientConfig (Signer := Signer) fs t in
  is_Err r.2 = false ->
  exists name user key host,
    Name t = Some name /\ User t = Some user /\ Key t = Some key /\
    Host t = Some host /\ is_Some (Destination t) /\ is_Some (FilePattern t) /\
    0 <= default 10 (RotationCnt t) /\
    (forall p, FilterPort t = Some p -> 1 <= p <= 65535) /\
    r.2 = load_key fs user host key (default 22 (config.Port t)) /\
    UseSudo r.1.1 = Some (default false (UseSudo t)) /\
    User r.1.1 = User t /\ FilterPort r.1.1 = FilterPort t.
Proof.
  destruct t as [n h p u k d f r s fp]. unfold getClientConfig. simpl.
  destruct n as [n|], u as [u|], k as [k|], h as [h|]; simpl; try done.
  destruct p as [p|], d as [d|], f as [f|]; simpl; try done;
    destruct r as [r|]; simpl; repeat case_decide; try lia; simpl; try done;
    destruct s as [s|], fp as [q|]; simpl; repeat case_decide; simpl; try done;
    intros Hok; exists n, u, k, h; split_and!;
    first [done | lia | by eexists | intros ? [= <-]; lia | intros ? [=]].
Qed.

(** X20. A second [getClientConfig] on the target that a first call left
    changes nothing: the target stays as it is, nothing is logged (the
    defaults are in place), and the result is the one of the first call. *)
Theorem getClientConfig_idempotent (fs : FS) (t : target) :
  let r := getClientConfig (Signer := Signer) fs t in
  getClientConfig (Signer := Signer) fs r.1.1 = (r.1.1, [], r.2).
Proof.
  destruct t as [n h p u k d f r s fp]. unfold getClientConfig. simpl.
  destruct n as [n|], u as [u|], k as [k|], h as [h|]; simpl; try done.
  destruct p as [p|], d as [d|], f as [f|]; simpl; try done;
    destruct r as [r|], s as [s|], fp as [q|];
    repeat (first [progress simpl | case_decide]; try lia); done.
Qed.

(** X21. When [getClientConfig] returns a client configuration, the
    target had its six mandatory fields, a rotation count that is not
    negative and a filter port, if any, within 1..65535; the key file
    was read and parsed; the configuration carries the user of the
    target, the one public-key method of that key and the host key
    callback that accepts any key; and the destination is host:port, with
    port 22 when the target had none. *)
Theorem getClientConfig_success (fs : FS) (t t' : target) log cc dest :
  getClientConfig fs t = (t', log, Ok (cc, dest)) ->
  exists name user key host k (signer : Signer),
    Name t = Some name /\ User t = Some user /\ Key t = Some key /\
    Host t = Some host /\ is_Some (Destination t) /\ is_Some (FilePattern t) /\
    0 <= default 10 (RotationCnt t) /\
    (forall p, FilterPort t = Some p -> 1 <= p <= 65535) /\
    ReadFile fs key = Ok k /\ ParsePrivateKey k = Ok signer /\
    cc = {| ccUser := user; ccAuth := [PublicKeys signer];
            ccHostKeyCallback := InsecureIgnoreHostKey |} /\
    dest = host +:+ ":" +:+ pretty (default 22 (config.Port t)).
Proof.
  intros Hget.
  pose proof (getClientConfig_accepts fs t) as Hacc.
  rewrite Hget in Hacc. simpl in Hacc. specialize (Hacc eq_refl).
  destruct Hacc
    as (name & user & key & host & Hn & Hu & Hk & Hh & Hd & Hf & Hr & Hfp & Hres & _).
  unfold load_key in Hres.
  destruct (ReadFile fs key) as [kb | e] eqn:Hread; [| discriminate].
  destruct (ParsePrivateKey kb) as [signer | e] eqn:Hparse; [| discriminate].
  injection Hres as -> ->.
  exists name, user, key, host, kb, signer. split_and!; done.
Qed.

(** X22. [getSudoConfig] dereferences the use-sudo flag, and the user when
    the flag is set: it panics exactly when the flag is missing, or set
    with the user missing.  On the target left by a [getClientConfig]
    that returned no error it does not panic: sudo is used when the
    target asked for it, under the user of the target, and the filter
    port handed to the capturer is the one of the target. *)
Theorem getSudoConfig_safe_after_validation (fs : FS) (t : target) :
  (getSudoConfig t = None <->
   UseSudo t = None \/ (UseSudo t = Some true /\ User t = None)) /\
  (let r := getClientConfig (Signer := Signer) fs t in
   is_Err r.2 = false ->
   exists user,
     User t = Some user /\
     getSudoConfig r.1.1 =
       Some {| Use := default false (UseSudo t);
               Username := if default false (UseSudo t) then Some user else None |} /\
     getFilterConfig r.1.1 = {| commands.Port := FilterPort t |}).
Proof.
  split.
  - unfold getSudoConfig. destruct (UseSudo t) as [[|]|], (User t); simpl;
      (split; [intros Hp | intros [Hp | [Hp Hq]]]); first [done | by left | by right].
  - intros r Hok. subst r.
    pose proof (getClientConfig_accepts fs t Hok)
      as (name & user & key & host & _ & Hu & _ & _ & _ & _ & _ & _ & _ & Hs & Hu' & Hfp').
    exists user. split; [done |]. unfold getSudoConfig, getFilterConfig.
    rewrite Hs, Hu', Hu, Hfp'. by destruct (default false (UseSudo t)).
Qed.

End Loader.

Import refyaml.

Lemma two_names_NoDup : NoDup ["alpha"%string; "beta"%string].
Proof.
  apply NoDup_cons. split; [| apply NoDup_singleton].
  intros Hin. apply list_elem_of_singleton in Hin. discriminate.
Qed.

Lemma checkForDuplicates_spec_samples :
  checkForDuplicates two_targets = Some None /\
  exists n pre t post,
    Targets alpha_twice = pre ++ t :: post /\ Name t = Some n /\
    Some n ∈ Name <$> pre /\
    "target alpha is defined more than once"%string =
      "target " +:+ n +:+ " is defined more than once".
Proof.
  split.
  - apply (proj2 (proj1 (checkForDuplicates_spec two_targets))).
    exists ["alpha"%string; "beta"%string]. split; [reflexivity | exact two_names_NoDup].
  - apply (proj2 (checkForDuplicates_spec alpha_twice)). reflexivity.
Defined.

Lemma parseConfig_accepts_iff_sample :
  Unmarshal (Marshal sample_conf).1 = ({| Targets := [sample_target] |}, None) /\
  Targets {| Targets := [sample_target] |} <> [] /\
  exists names, mapM Name (Targets {| Targets := [sample_target] |}) = Some names /\
                NoDup names.
Proof.
  apply (proj1 (parseConfig_accepts_iff (Marshal sample_conf).1
                  {| Targets := [sample_target] |})).
  vm_compute. reflexivity.
Defined.

Lemma getTargetsList_of_parsed_sample :
  exists names,
    getTargetsList {| Targets := [sample_target] |} = Some names /\
    Some <$> names = Name <$> Targets {| Targets := [sample_target] |} /\
    NoDup names /\ names <> [].
Proof.
  apply (getTargetsList_of_parsed (Marshal sample_conf).1 {| Targets := [sample_target] |}).
  vm_compute. reflexivity.
Defined.

Lemma readConfigFromFile_outcomes_samples :
  (exists e, readConfigFromFile empty_disk "tranqap.yaml" =
     Some ({| Targets := [] |},
           Some (e +:+ ". Run init subcommand to generate empty config or provide path to existing config with -c"))) /\
  readConfigFromFile disk_with_config "tranqap.yaml" =
    Some ({| Targets := [sample_target] |}, None).
Proof.
  split.
  - apply (proj1 (readConfigFromFile_outcomes empty_disk "tranqap.yaml")). reflexivity.
  - apply (proj2 (proj2 (proj2 (readConfigFromFile_outcomes disk_with_config "tranqap.yaml"))
                   {| Targets := [sample_target] |})).
    exists (Marshal sample_conf).1. split; [reflexivity | vm_compute; reflexivity].
Defined.


Lemma getClientConfig_success_minimal :
  exists name user key host k (signer : list byte),
    Name minimal_target = Some name /\ User minimal_target = Some user /\
    Key minimal_target = Some key /\ Host minimal_target = Some host /\
    is_Some (Destination minimal_target) /\ is_Some (FilePattern minimal_target) /\
    0 <= default 10 (RotationCnt minimal_target) /\
    (forall p, FilterPort minimal_target = Some p -> 1 <= p <= 65535) /\
    ReadFile disk key = Ok k /\ ParsePrivateKey k = Ok signer /\
    {| ccUser := "root"%string; ccAuth := [PublicKeys [x2d; x2d]];
       ccHostKeyCallback := InsecureIgnoreHostKey |} =
      {| ccUser := user; ccAuth := [PublicKeys signer];
         ccHostKeyCallback := InsecureIgnoreHostKey |} /\
    "10.0.0.1:22"%string = host +:+ ":" +:+ pretty (default 22 (config.Port minimal_target)).
Proof.
  exact (getClientConfig_success disk minimal_target _ _ _ _ eq_refl).
Defined.

Lemma getSudoConfig_safe_after_validation_samples :
  (getSudoConfig minimal_target = None) /\
  exists user,
    User beta_target = Some user /\
    getSudoConfig (getClientConfig (Signer := list byte) disk beta_target).1.1 =
      Some {| Use := default false (UseSudo beta_target);
              Username := if default false (UseSudo beta_target)
                          then Some user else None |} /\
    getFilterConfig (getClientConfig (Signer := list byte) disk beta_target).1.1 =
      {| commands.Port := FilterPort beta_target |}.
Proof.
  split.
  - apply (proj1 (getSudoConfig_safe_after_validation (Signer := list byte)
                    disk minimal_target)).
    left. reflexivity.
  - apply (proj2 (getSudoConfig_safe_after_validation (Signer := list byte)
                    disk beta_target)).
    reflexivity.
Defined.

End config_more.

(* ===================================================================== *)
(** * Properties of the logger *)
(* ===================================================================== *)

Module tqlog_props.
Import config capture tqlogger samples logger_samples.

Lemma last_char_append (a b : string) :
  b <> ""%string -> last_char (a +:+ b) = last_char b.
Proof.
  intros Hb. induction a as [| c a IH]; [done |].
  simpl. rewrite IH. destruct (a +:+ b) eqn:Hab; [| done].
  destruct a; simpl in Hab; [done | discriminate].
Qed.

Lemma last_char_is_Some (s : string) : s <> ""%string -> is_Some (last_char s).
Proof.
  induction s as [| c s IH]; [done |]. intros _. simpl.
  destruct s; [by eexists | by apply IH].
Qed.

(** X23. [Error] writes nothing while no log file is open.  With a log
    file open it panics on an empty format (the last byte of the format
    is read), and otherwise hands the logger one line: the format behind
    [ERROR: ], with a line feed added exactly when the format does not end
    in one, so that the line always ends in a line feed. *)
Theorem Error_writes_one_line (st : state) (format : string) (a : list string) :
  (tranqapLog st = None -> Error st format a = Some st) /\
  (forall l, tranqapLog st = Some l -> format = ""%string -> Error st format a = None) /\
  (forall l, tranqapLog st = Some l -> format <> ""%string ->
     exists msg,
       Error st format a = Some (with_log st (logger_Printf l msg a)) /\
       last_char msg = Some (Ascii.ascii_of_nat 10) /\
       msg = (if decide (last_char format = Some (Ascii.ascii_of_nat 10))
              then "ERROR: " +:+ format
              else "ERROR: " +:+ format +:+ nl)).
Proof.
  unfold Error. split; [by intros -> |]. split.
  - intros l -> ->. done.
  - intros l -> Hne. unfold logError.
    destruct (last_char_is_Some format Hne) as [c Hc]. rewrite Hc. simpl.
    eexists. split; [reflexivity |].
    destruct (decide (c = Ascii.ascii_of_nat 10)) as [-> | Hc'].
    + rewrite decide_True by done. split; [| done].
      by rewrite last_char_append.
    + rewrite decide_False by congruence. split; [| done].
      rewrite !last_char_append; [done | done |].
      by destruct format.
Qed.

Lemma Error_writes_one_line_samples :
  Error (initial samples.disk) "cannot stop" [] = Some (initial samples.disk) /\
  Error logging "" [] = None /\
  exists msg,
    Error logging "cannot stop" [] =
      Some (with_log logging
              (logger_Printf {| file := "tranqap.log"; logger := [] |} msg [])) /\
    last_char msg = Some (Ascii.ascii_of_nat 10) /\
    msg = (if decide (last_char "cannot stop" = Some (Ascii.ascii_of_nat 10))
           then "ERROR: " +:+ "cannot stop"
           else "ERROR: " +:+ "cannot stop" +:+ nl).
Proof.
  split; [| split].
  - apply (proj1 (Error_writes_one_line (initial samples.disk) "cannot stop" [])). reflexivity.
  - apply (proj1 (proj2 (Error_writes_one_line logging "" []))
             {| file := "tranqap.log"; logger := [] |}); reflexivity.
  - apply (proj2 (proj2 (Error_writes_one_line logging "cannot stop" []))
             {| file := "tranqap.log"; logger := [] |}); [reflexivity | discriminate].
Defined.

(** X24. [Init] from the initial state.  With an empty file name no log
    file is opened (so [Info] and [Error] write nothing) and the feedback
    callback is installed.  With the name of a file that can be opened
    for writing, the file is created empty and both the log and the
    callback are in place.  When the file cannot be opened, [Init] returns
    an error and leaves the state as it was: the callback is not
    installed, and [Feedback] shows nothing. *)
Theorem Init_outcomes (fs : FS) (fname : string) (fn : FeedbackFn) format a :
  let r := Init (initial fs) fname (Some fn) in
  (fname = ""%string ->
     r.2 = None /\ tranqapLog r.1 = None /\ tqlogger.disk r.1 = fs /\
     Info r.1 format a = r.1 /\ Error r.1 format a = Some r.1 /\
     shown (Feedback r.1 format a) = [(fn, format, a)]) /\
  (fname <> ""%string -> fname ∉ readonly fs ->
     r.2 = None /\ tranqapLog r.1 = Some {| file := fname; logger := [] |} /\
     files (tqlogger.disk r.1) !! fname = Some [] /\
     shown (Feedback r.1 format a) = [(fn, format, a)]) /\
  (fname <> ""%string -> fname ∈ readonly fs ->
     is_Some r.2 /\ r.1 = initial fs /\ Feedback r.1 format a = r.1).
Proof.
  unfold Init, OpenFile_trunc, WriteFile. simpl. split; [| split].
  - intros ->. simpl. done.
  - intros Hne Hrw. destruct (decide (0 < String.length fname)%nat) as [_ | Hz].
    + rewrite decide_False by done. simpl. split; [done |]. split; [done |].
      split; [apply lookup_insert_eq | done].
    + destruct fname; [done | simpl in Hz; lia].
  - intros Hne Hro. destruct (decide (0 < String.length fname)%nat) as [_ | Hz].
    + rewrite decide_True by done. simpl. split; [by eexists | done].
    + destruct fname; [done | simpl in Hz; lia].
Qed.

Lemma Init_outcomes_samples :
  (let r := Init (initial samples.disk) "" (Some 1%nat) in
   r.2 = None /\ tranqapLog r.1 = None /\ tqlogger.disk r.1 = samples.disk /\
   Info r.1 "started" [] = r.1 /\ Error r.1 "started" [] = Some r.1 /\
   shown (Feedback r.1 "started" []) = [(1%nat, "started"%string, [])]) /\
  (let r := Init (initial samples.disk) "tranqap.log" (Some 1%nat) in
   r.2 = None /\ tranqapLog r.1 = Some {| file := "tranqap.log"; logger := [] |} /\
   files (tqlogger.disk r.1) !! "tranqap.log"%string = Some [] /\
   shown (Feedback r.1 "started" []) = [(1%nat, "started"%string, [])]) /\
  (let r := Init (initial locked_disk) "/var/log/tranqap.log" (Some 1%nat) in
   is_Some r.2 /\ r.1 = initial locked_disk /\ Feedback r.1 "started" [] = r.1).
Proof.
  split; [| split].
  - apply (proj1 (Init_outcomes samples.disk "" 1%nat "started" [])). reflexivity.
  - apply (proj1 (proj2 (Init_outcomes samples.disk "tranqap.log" 1%nat "started" []))).
    + discriminate.
    + apply not_elem_of_empty.
  - apply (proj2 (proj2 (Init_outcomes locked_disk "/var/log/tranqap.log" 1%nat
                           "started" []))).
    + discriminate.
    + unfold locked_disk. simpl. apply elem_of_singleton. reflexivity.
Defined.

(** ** The calls the storage and the loader make *)

Lemma perform_all_takes (cs : list tqlog.call) : forall st,
  Forall takes cs -> is_Some (perform_all st cs).
Proof.
  induction cs as [| c cs IH]; intros st Hall; simpl; [by eexists |].
  apply Forall_cons in Hall as [Hc Hall]. destruct c as [f a | f a | f a]; simpl.
  - by apply IH.
  - unfold Error. destruct (tranqapLog st) as [l|]; simpl; [| by apply IH].
    unfold logError. destruct (last_char_is_Some f Hc) as [c ->]. simpl. by apply IH.
  - by apply IH.
Qed.

Lemma target_missing_not_empty (t : string) : target_missing t <> ""%string.
Proof. done. Qed.

Section Storage.
Context {C : Type} `{Capturer C}.

Lemma add_for_targets_takes factFn (targets : list string) :
  forall acc : gmap string C * list effect,
    Forall takes (omap log_of acc.2) ->
    Forall takes (omap log_of (foldl (add_for_target factFn) acc targets).2).
Proof.
  induction targets as [| t targets IH]; intros acc Hacc; simpl; [done |].
  apply IH. unfold add_for_target, add_outputer.
  destruct (acc.1 !! t) as [capt|].
  - destruct (AddOutputer capt factFn) as [capt' [e|]]; simpl;
      rewrite omap_app; apply Forall_app; split; try done; simpl;
      repeat constructor; done.
  - simpl. rewrite omap_app. apply Forall_app. split; [done |]. simpl.
    repeat constructor; apply target_missing_not_empty.
Qed.

Lemma add_outputers_takes factFn (l : list (string * C)) :
  forall acc : gmap string C * list effect,
    Forall takes (omap log_of acc.2) ->
    Forall takes
      (omap log_of (foldl (fun acc kv => add_outputer factFn kv.1 kv.2 acc) acc l).2).
Proof.
  induction l as [| kv l IH]; intros acc Hacc; simpl; [done |].
  apply IH. unfold add_outputer.
  destruct (AddOutputer kv.2 factFn) as [capt' [e|]]; simpl;
    rewrite omap_app; apply Forall_app; split; try done; simpl;
    repeat constructor; done.
Qed.

Lemma stop_all_takes (l : list (string * C)) :
  forall acc : gmap string C * list effect,
    Forall takes (omap log_of acc.2) ->
    Forall takes (omap log_of (foldl stop_one acc l).2).
Proof.
  induction l as [| kv l IH]; intros acc Hacc; simpl; [done |].
  apply IH. unfold stop_one.
  destruct (Stop kv.2) as [capt [e|]]; simpl;
    rewrite omap_app; apply Forall_app; split; try done; simpl;
    repeat constructor; done.
Qed.

(** X25. Whatever the state of the logger, the calls that [AddNewOutput]
    and [StopAll] make on it are all taken without panic: no format
    handed to [Error] is empty. *)
Theorem storage_logging_never_panics (st : state) (c : Storage C) factFn
    (targets : list string) (receiver : option (Storage C)) :
  is_Some (perform_all st (omap log_of (AddNewOutput c factFn targets).2)) /\
  is_Some (perform_all st (omap log_of (StopAll receiver).2)).
Proof.
  split; apply perform_all_takes.
  - unfold AddNewOutput. destruct (decide (length targets = 0%nat)).
    + destruct (decide (size (capturers c) = 0%nat)); simpl.
      * repeat constructor; done.
      * by apply add_outputers_takes.
    + simpl. by apply add_for_targets_takes.
  - unfold StopAll. destruct receiver as [s|]; simpl.
    + apply stop_all_takes. simpl. repeat constructor.
    + repeat constructor.
Qed.

End Storage.

End tqlog_props.
